(** * Triage automation: classification, owner resolution and decisions

    A shallow embedding of [triage_automation.py]: the topic catalog
    loader ([load_bucket_mapping]), the interpretation of the model's reply
    inside [classify_issue], and the per-issue loop of [process_issues].

    Conventions of the embedding.
    - Python [str] values are [string]s: the UTF-8 bytes of the text.
      [lower] folds the ASCII letters and [strip] trims the ASCII white
      space; the case mapping and the white space of non-ASCII characters
      are outside the model.
    - Values decoded from JSON are dynamically typed, so the fields of a
      [ClassificationResult] that come from the model are [json] values.
    - Exceptions are explicit: a computation returns [Ok] or [Raise].
    - Calls to the outside world (the model, the tracker) are recorded in a
      log of [event]s; their answers come from a [services] record whose
      functions see the calls made so far. *)

From Stdlib Require Import String Ascii ZArith List Bool Lia.
From Stdlib Require Import Floats.SpecFloat.
From stdpp Require Import base option list strings gmap.

Local Open Scope string_scope.
Local Set Warnings "-register-all".

(** ** Python strings *)

Module PyStr.

Definition is_upper (c : ascii) : bool :=
  (65 <=? nat_of_ascii c)%nat && (nat_of_ascii c <=? 90)%nat.

Definition lower_char (c : ascii) : ascii :=
  if is_upper c then ascii_of_nat (nat_of_ascii c + 32) else c.

(** [s.lower()] *)
Fixpoint lower (s : string) : string :=
  match s with
  | EmptyString => EmptyString
  | String c r => String (lower_char c) (lower r)
  end.

(** [s.startswith(p)] *)
Fixpoint startswith (p s : string) : bool :=
  match p, s with
  | EmptyString, _ => true
  | String _ _, EmptyString => false
  | String a p', String b s' => Ascii.eqb a b && startswith p' s'
  end.

(** [sub in s] *)
Fixpoint contains (sub s : string) : bool :=
  startswith sub s ||
  match s with
  | EmptyString => false
  | String _ r => contains sub r
  end.

(** [s[n:]] *)
Fixpoint drop (n : nat) (s : string) : string :=
  match n, s with
  | O, _ => s
  | S _, EmptyString => EmptyString
  | S n', String _ r => drop n' r
  end.

(** The text of [s] before the first occurrence of [sep], all of [s] when
    there is none: [s.split(sep)[0]] for a non-empty [sep]. *)
Fixpoint before (sep s : string) : string :=
  if startswith sep s then EmptyString
  else match s with
       | EmptyString => EmptyString
       | String c r => String c (before sep r)
       end.

(** The white space that [str.strip()] removes, among the ASCII
    characters: tab, line feed, vertical tab, form feed, carriage return,
    the separators 28 to 31 and the space. *)
Definition is_space (c : ascii) : bool :=
  let n := nat_of_ascii c in
  ((9 <=? n)%nat && (n <=? 13)%nat) || ((28 <=? n)%nat && (n <=? 32)%nat).

Fixpoint lstrip (s : string) : string :=
  match s with
  | EmptyString => EmptyString
  | String c r => if is_space c then lstrip r else s
  end.

Fixpoint rstrip (s : string) : string :=
  match s with
  | EmptyString => EmptyString
  | String c r =>
      match rstrip r with
      | EmptyString => if is_space c then EmptyString else String c EmptyString
      | r' => String c r'
      end
  end.

(** [s.strip()] *)
Definition strip (s : string) : string := rstrip (lstrip s).

(** Truth value of a string: non-empty. *)
Definition nonempty (s : string) : bool :=
  match s with EmptyString => false | String _ _ => true end.

(** ["\n".join(parts)] *)
Fixpoint join_lines (parts : list string) : string :=
  match parts with
  | [] => EmptyString
  | [p] => p
  | p :: rest => p ++ String "010" (join_lines rest)
  end.

End PyStr.
Import PyStr.

(** ** Exceptions *)

Inductive exn : Type :=
| AttributeError
| OSError
| ServiceError (msg : string)
| ValueError (msg : string)
| RecursionError (msg : string)
| UnicodeDecodeError (msg : string)
| CsvError (msg : string).

(** [str(e)] *)
Definition exn_message (e : exn) : string :=
  match e with
  | AttributeError => "AttributeError"
  | OSError => "OSError"
  | ServiceError msg => msg
  | ValueError msg => msg
  | RecursionError msg => msg
  | UnicodeDecodeError msg => msg
  | CsvError msg => msg
  end.

Inductive result (A : Type) : Type :=
| Ok (a : A)
| Raise (e : exn).
Arguments Ok {A} a.
Arguments Raise {A} e.

#[global] Instance result_ret : MRet result := fun _ a => Ok a.
#[global] Instance result_bind : MBind result := fun _ _ k r =>
  match r with
  | Ok a => k a
  | Raise e => Raise e
  end.

#[global] Instance result_fmap : FMap result := fun _ _ f r =>
  match r with
  | Ok a => Ok (f a)
  | Raise e => Raise e
  end.

(** ** Values decoded from JSON *)

Inductive json : Type :=
| JNull
| JBool (b : bool)
| JInt (n : Z)
| JFloat (f : spec_float)
| JStr (s : string)
| JArr (items : list json)
| JObj (fields : gmap string json).

Module Json.

(** Truth value of a decoded value, as [if v:] tests it. *)
Definition truthy (v : json) : bool :=
  match v with
  | JNull => false
  | JBool b => b
  | JInt n => negb (n =? 0)%Z
  | JFloat (S754_zero _) => false
  | JFloat _ => true
  | JStr s => nonempty s
  | JArr items => match items with [] => false | _ => true end
  | JObj fields => negb (bool_decide (fields = ∅))
  end.

(** [v == s] for a string literal [s]. *)
Definition eq_str (v : json) (s : string) : bool :=
  match v with
  | JStr t => String.eqb t s
  | _ => false
  end.

(** [v.get(key, default)]: only a dict has the method. *)
Definition get (v : json) (key : string) (default : json) : result json :=
  match v with
  | JObj fields => Ok (from_option id default (fields !! key))
  | _ => Raise AttributeError
  end.

(** [v.lower()]: only a string has the method. *)
Definition lower (v : json) : result string :=
  match v with
  | JStr s => Ok (PyStr.lower s)
  | _ => Raise AttributeError
  end.

(** The text of a value that is a string. *)
Definition text (v : json) : string :=
  match v with
  | JStr s => s
  | _ => EmptyString
  end.

End Json.

(** ** The Python runtime

    Library functions the program calls and that are taken as given:
    [json.loads] (None when it raises), the exception that it raises on a
    text it does not decode when that is not a [json.JSONDecodeError] (a
    [ValueError] for an integer over the digit limit, a [RecursionError]
    for a nesting too deep), the text that an f-string produces for a value
    that is not a string, and the order in which [list(set(d.keys()))]
    enumerates the keys of a dict. *)

Record runtime : Type := {
  json_loads : string -> option json;
  json_error : string -> option exn;
  repr : json -> string;
  key_order : gmap string string -> list string;
}.

(** [f"{v}"] *)
Definition format_value (py : runtime) (v : json) : string :=
  match v with
  | JStr s => s
  | _ => repr py v
  end.

(** ** Topic-to-owner mapping *)

(** A cell of a row read by [csv.DictReader]: the column is not in the
    header ([Absent]), the row is too short to reach it and holds [None]
    ([Blank]), or it holds text. *)
Inductive cell : Type :=
| Absent
| Blank
| Text (s : string).

Record row : Type := {
  Name : cell;
  Owner : cell;
  Note : cell;
}.

(** The file named [BUCKETS_CSV] as [open] and the reader find it: it
    cannot be opened; it is read to its end; or the reader gives some rows
    and then raises (bytes that are not UTF-8, a field over the limit of
    [csv]). *)
Inductive source : Type :=
| Unreadable
| Rows (rows : list row)
| Interrupted (rows : list row) (e : exn).

(** [row.get(col, "").strip()] *)
Definition cell_strip (c : cell) : result string :=
  match c with
  | Absent => Ok (strip EmptyString)
  | Blank => Raise AttributeError
  | Text s => Ok (strip s)
  end.

(** One turn of the loop over the rows in [load_bucket_mapping]. *)
Definition load_row (mapping : gmap string string) (r : row)
  : result (gmap string string) :=
  name ← cell_strip (Name r);
  owner ← cell_strip (Owner r);
  if nonempty name && nonempty owner
  then Ok (<[lower name := owner]> mapping)
  else Ok mapping.

Fixpoint load_rows (mapping : gmap string string) (rows : list row)
  : result (gmap string string) :=
  match rows with
  | [] => Ok mapping
  | r :: rest => mapping' ← load_row mapping r; load_rows mapping' rest
  end.

Definition load_bucket_mapping (src : source) : result (gmap string string) :=
  match src with
  | Unreadable => Raise OSError
  | Rows rows => load_rows ∅ rows
  | Interrupted rows e => _ ← load_rows ∅ rows; Raise e
  end.

(** ** Owner tables *)

Definition OWNER_NAME_MAP : list (string * string) :=
  [ ("Vladimir Krska", "VladimÃ­r KriÅ¡ka");
    ("Zuzana Bednarova", "Zuzana BednÃ¡Å™ovÃ¡");
    ("Jiri Zavora", "JiÅ™Ã­ ZÃ¡vora") ].

Definition FEATURE_OWNER_OVERRIDES : list (string * string) :=
  [ ("native datatypes", "Zuzana Bednarova") ].

Definition NEEDS_REVIEW_LABEL : string := "needs-review".

(** [d.get(key)] on a dict written as the list of its items. *)
Fixpoint assoc (key : string) (d : list (string * string)) : option string :=
  match d with
  | [] => None
  | (k, v) :: rest => if String.eqb k key then Some v else assoc key rest
  end.

Definition normalize_owner_name (name : string) : string :=
  from_option id name (assoc name OWNER_NAME_MAP).

(** ** Classification *)

Record ClassificationResult : Type := {
  primary_bucket : string;
  secondary_bucket : json;
  confidence : json;
  reasoning : json;
}.

(** The reply with an optional code fence removed, as handed to
    [json.loads]. *)
Definition unfence (response_text : string) : string :=
  if startswith "```" response_text then
    let response_text := before "```" (drop 3 response_text) in
    if startswith "json" response_text then drop 4 response_text
    else response_text
  else response_text.

(** The loop that validates the primary bucket: the first name equal to it
    up to case replaces it. *)
Fixpoint match_bucket (bucket_names : list string) (primary_lower primary : string)
  : string :=
  match bucket_names with
  | [] => primary
  | name :: rest =>
      if String.eqb (lower name) primary_lower then name
      else match_bucket rest primary_lower primary
  end.

(** The check of the secondary bucket's owner. *)
Definition reconcile (bucket_mapping : gmap string string)
    (primary : string) (secondary confidence : json) : result json :=
  if Json.truthy secondary && Json.eq_str confidence "low" then
    let primary_owner := default EmptyString (bucket_mapping !! lower primary) in
    secondary_lower ← Json.lower secondary;
    let secondary_owner := default EmptyString (bucket_mapping !! secondary_lower) in
    if nonempty primary_owner && nonempty secondary_owner
       && String.eqb primary_owner secondary_owner
    then Ok (JStr "high")
    else Ok confidence
  else Ok confidence.

(** [classify_issue] from the reply of the model on: [raw] is
    [message.content[0].text]. *)
Definition interpret (py : runtime) (raw : string)
    (bucket_names : list string) (bucket_mapping : gmap string string)
  : result ClassificationResult :=
  let response_text := unfence (strip raw) in
  match json_loads py response_text with
  | None =>
      match json_error py response_text with
      | Some e => Raise e
      | None =>
          Ok {| primary_bucket := response_text;
                secondary_bucket := JNull;
                confidence := JStr "low";
                reasoning := JStr "Failed to parse AI response" |}
      end
  | Some result =>
      primary ← Json.get result "primary_bucket" (JStr "UX");
      secondary ← Json.get result "secondary_bucket" JNull;
      confidence ← Json.get result "confidence" (JStr "low");
      reasoning ← Json.get result "reasoning" (JStr EmptyString);
      primary_lower ← Json.lower primary;
      let primary := match_bucket bucket_names primary_lower (Json.text primary) in
      confidence ← reconcile bucket_mapping primary secondary confidence;
      Ok {| primary_bucket := primary;
            secondary_bucket := secondary;
            confidence := confidence;
            reasoning := reasoning |}
  end.

(** ** The tracker, the model and the log of calls *)

Record member : Type := {
  member_id : string;
  member_name : string;
  member_email : string;
}.

Record user : Type := {
  user_id : string;
  user_name : string;
}.

Record issue : Type := {
  issue_id : string;
  identifier : string;
  title : string;
  description : option string;
  assignee : option user;
  labels : list string;
}.

Inductive event : Type :=
| MessagesCreate (i : issue) (bucket_descriptions : string) (reply : result string)
| GetOrCreateLabel (team_id label_name : string) (reply : result string)
| AssignIssue (issue_id assignee_id : string) (label_ids : option (list string))
    (reply : result unit)
| AddComment (issue_id body : string) (reply : result unit).

(** The answers of the outside world, each a function of the calls made
    before it. *)
Record services : Type := {
  messages_create : list event -> issue -> string -> result string;
  get_or_create_label : list event -> string -> string -> result string;
  assign_issue :
    list event -> string -> string -> option (list string) -> result unit;
  add_comment : list event -> string -> string -> result unit;
}.

(** Computations that call the outside world: the log is threaded through
    and survives an exception. *)
Definition M (A : Type) : Type := list event -> result A * list event.

Module Run.

Definition ret {A} (a : A) : M A := fun log => (Ok a, log).

Definition bind {A B} (m : M A) (k : A -> M B) : M B := fun log =>
  match m log with
  | (Ok a, log') => k a log'
  | (Raise e, log') => (Raise e, log')
  end.

Definition lift {A} (r : result A) : M A := fun log => (r, log).

(** [try: m except Exception as e: ...] hands the outcome to the caller. *)
Definition attempt {A} (m : M A) : M (result A) := fun log =>
  let (r, log') := m log in (Ok r, log').

Definition call {A} (answer : list event -> result A)
    (record : result A -> event) : M A := fun log =>
  let r := answer log in (r, (log ++ [record r])%list).

End Run.

Notation "'do' x <- m ; k" := (Run.bind m (fun x => k))
  (at level 10, x pattern, m at level 100, k at level 200,
   format "'[v' 'do'  x  <-  m ; '/' k ']'").

(** An entry of [results]: a dict with the keys below, [None] for a key
    that the entry does not have. *)
Record report : Type := {
  rep_identifier : string;
  rep_title : string;
  rep_bucket : option string;
  rep_owner : option string;
  rep_confidence : option json;
  rep_action : string;
  rep_reason : option string;
}.

(** [l.append(a)] *)
Definition append {A} (l : list A) (a : A) : list A := (l ++ [a])%list.

Section Pipeline.

Variable py : runtime.
Variable sv : services.

Definition call_model (i : issue) (bucket_descriptions : string) : M string :=
  Run.call (fun log => messages_create sv log i bucket_descriptions)
           (MessagesCreate i bucket_descriptions).

Definition call_get_or_create_label (team_id label_name : string) : M string :=
  Run.call (fun log => get_or_create_label sv log team_id label_name)
           (GetOrCreateLabel team_id label_name).

Definition call_assign_issue (issue_id assignee_id : string)
    (label_ids : option (list string)) : M unit :=
  Run.call (fun log => assign_issue sv log issue_id assignee_id label_ids)
           (AssignIssue issue_id assignee_id label_ids).

Definition call_add_comment (issue_id body : string) : M unit :=
  Run.call (fun log => add_comment sv log issue_id body)
           (AddComment issue_id body).

Definition classify_issue (i : issue) (bucket_descriptions : string)
    (bucket_names : list string) (bucket_mapping : gmap string string)
  : M ClassificationResult :=
  do raw <- call_model i bucket_descriptions;
  Run.lift (interpret py raw bucket_names bucket_mapping).

(** *** Main logic *)

Definition add_aliases (m : member) (member_lookup : gmap string member)
  : gmap string member :=
  foldl (fun lookup '(csv_name, linear_name) =>
           if String.eqb (member_name m) linear_name
           then <[lower csv_name := m]> lookup
           else lookup)
        member_lookup OWNER_NAME_MAP.

Definition build_member_lookup (team_members : list member)
  : gmap string member :=
  foldl (fun lookup m => add_aliases m (<[lower (member_name m) := m]> lookup))
        ∅ team_members.

(** The loop over [FEATURE_OWNER_OVERRIDES]. *)
Fixpoint feature_override (overrides : list (string * string))
    (title_lower : string) : option string :=
  match overrides with
  | [] => None
  | (feature, override_owner) :: rest =>
      if contains feature title_lower then Some override_owner
      else feature_override rest title_lower
  end.

(** Truth value of [owner_name]: neither [None] nor empty. *)
Definition owner_set (owner_name : option string) : bool :=
  match owner_name with
  | Some s => nonempty s
  | None => false
  end.

(** The owner name of an issue: the feature override, else the owner of
    the bucket. *)
Definition resolve_owner_name (bucket_mapping : gmap string string)
    (title bucket : string) : option string :=
  let owner_name := feature_override FEATURE_OWNER_OVERRIDES (lower title) in
  if owner_set owner_name then owner_name
  else bucket_mapping !! lower bucket.

Definition find_member (member_lookup : gmap string member)
    (owner_name : string) : option member :=
  let normalized_owner := normalize_owner_name owner_name in
  match member_lookup !! lower owner_name with
  | Some m => Some m
  | None => member_lookup !! lower normalized_owner
  end.

Definition comment_body (bucket member_name : string)
    (classification : ClassificationResult) : string :=
  let comment_parts :=
    [ "**Auto-triage classification**";
      EmptyString;
      "- **Bucket:** " ++ bucket;
      "- **Assigned to:** " ++ member_name;
      "- **Confidence:** " ++ format_value py (confidence classification) ] in
  let comment_parts :=
    if Json.truthy (secondary_bucket classification)
    then append comment_parts
           ("- **Alternative bucket:** "
              ++ format_value py (secondary_bucket classification))
    else comment_parts in
  let comment_parts :=
    append comment_parts
      ("- **Reasoning:** " ++ format_value py (reasoning classification)) in
  join_lines comment_parts.

(** The label part of the [try] block: the memoized identifier after it
    and the [label_ids] to send. *)
Definition review_label (team_id : string) (add_needs_review : bool)
    (needs_review_label_id : option string)
  : M (option string * option (list string)) :=
  if add_needs_review then
    match needs_review_label_id with
    | None =>
        do label_id <- call_get_or_create_label team_id NEEDS_REVIEW_LABEL;
        Run.ret (Some label_id, Some [label_id])
    | Some label_id => Run.ret (Some label_id, Some [label_id])
    end
  else Run.ret (needs_review_label_id, None).

Section Loop.

Variable bucket_mapping : gmap string string.
Variable bucket_descriptions : string.
Variable member_lookup : gmap string member.
Variable team_id : string.
Variable dry_run : bool.
Variable bucket_names : list string.

(** The entry for an issue whose owner is the member [m]: with a
    reason it is an error and has no confidence. *)
Definition member_entry (i : issue) (bucket : string) (m : member)
    (classification : ClassificationResult)
    (action : string) (reason : option string) : report :=
  {| rep_identifier := identifier i;
     rep_title := title i;
     rep_bucket := Some bucket;
     rep_owner := Some (member_name m);
     rep_confidence :=
       match reason with
       | None => Some (confidence classification)
       | Some _ => None
       end;
     rep_action := action;
     rep_reason := reason |}.

(** The end of a turn, once the member is found: the audit comment and
    the assignment, or its preview in a dry run. *)
Definition assign (i : issue) (bucket : string) (m : member)
    (classification : ClassificationResult)
    (st : list report * option string)
  : M (list report * option string) :=
  let '(results, needs_review_label_id) := st in
  let add_needs_review := Json.eq_str (confidence classification) "low" in
  let body := comment_body bucket (member_name m) classification in
  let entry := member_entry i bucket m classification in
  if dry_run then
    Run.ret (append results (entry "would_assign" None), needs_review_label_id)
  else
    do fetched <-
      Run.attempt (review_label team_id add_needs_review needs_review_label_id);
    match fetched with
    | Raise e =>
        Run.ret (append results (entry "error" (Some (exn_message e))),
                 needs_review_label_id)
    | Ok (needs_review_label_id, label_ids) =>
        do sent <-
          Run.attempt
            (do _ <- call_assign_issue (issue_id i) (member_id m) label_ids;
             call_add_comment (issue_id i) body);
        match sent with
        | Raise e =>
            Run.ret (append results (entry "error" (Some (exn_message e))),
                     needs_review_label_id)
        | Ok _ =>
            Run.ret (append results (entry "assigned" None),
                     needs_review_label_id)
        end
    end.

(** The entry for an issue that already has an assignee. *)
Definition skipped_entry (i : issue) (current_assignee : user) : report :=
  {| rep_identifier := identifier i;
     rep_title := title i;
     rep_bucket := None;
     rep_owner := None;
     rep_confidence := None;
     rep_action := "skipped";
     rep_reason :=
       Some ("Already assigned to " ++ user_name current_assignee) |}.

(** The entries for an issue whose owner is not resolved. *)
Definition no_owner_entry (i : issue) (bucket : string) : report :=
  {| rep_identifier := identifier i;
     rep_title := title i;
     rep_bucket := Some bucket;
     rep_owner := None;
     rep_confidence := None;
     rep_action := "error";
     rep_reason := Some ("No owner found for bucket '" ++ bucket ++ "'") |}.

Definition no_member_entry (i : issue) (bucket owner_name : string) : report :=
  {| rep_identifier := identifier i;
     rep_title := title i;
     rep_bucket := Some bucket;
     rep_owner := Some owner_name;
     rep_confidence := None;
     rep_action := "error";
     rep_reason :=
       Some ("Owner '" ++ owner_name ++ "' not found in Linear team") |}.

(** The turn for an issue without assignee, once it is classified. *)
Definition decide_issue (i : issue) (classification : ClassificationResult)
    (st : list report * option string)
  : M (list report * option string) :=
  let bucket := primary_bucket classification in
  match resolve_owner_name bucket_mapping (title i) bucket with
  | None | Some EmptyString =>
      Run.ret (append (fst st) (no_owner_entry i bucket), snd st)
  | Some owner_name =>
      match find_member member_lookup owner_name with
      | None =>
          Run.ret (append (fst st) (no_member_entry i bucket owner_name),
                   snd st)
      | Some m => assign i bucket m classification st
      end
  end.

(** One turn of the loop over the issues: the state is [results] and
    [needs_review_label_id]. *)
Definition process_issue (st : list report * option string) (i : issue)
  : M (list report * option string) :=
  match assignee i with
  | Some current_assignee =>
      Run.ret (append (fst st) (skipped_entry i current_assignee), snd st)
  | None =>
      do classification <-
        classify_issue i bucket_descriptions bucket_names bucket_mapping;
      decide_issue i classification st
  end.

Fixpoint process_loop (st : list report * option string) (issues : list issue)
  : M (list report * option string) :=
  match issues with
  | [] => Run.ret st
  | i :: rest => do st' <- process_issue st i; process_loop st' rest
  end.

End Loop.

Definition process_issues (issues : list issue)
    (bucket_mapping : gmap string string) (bucket_descriptions : string)
    (team_members : list member) (team_id : string) (dry_run : bool)
  : M (list report) :=
  let bucket_names := key_order py bucket_mapping in
  let member_lookup := build_member_lookup team_members in
  do st <- process_loop bucket_mapping bucket_descriptions member_lookup
             team_id dry_run bucket_names ([], None) issues;
  Run.ret (fst st).

End Pipeline.

(** ** Rows that take part in routing *)

(** A row with both a non-empty name and a non-empty owner. *)
Definition usable (r : row) : bool :=
  match Name r, Owner r with
  | Text name, Text owner => nonempty (strip name) && nonempty (strip owner)
  | _, _ => false
  end.

(** A row too short to hold the name or the owner column. *)
Definition short (r : row) : bool :=
  match Name r, Owner r with
  | Blank, _ | _, Blank => true
  | _, _ => false
  end.

(** What every mapping built by the loader satisfies: keys are lower-case
    and non-empty, owners are non-empty. *)
Definition routable (mapping : gmap string string) : Prop :=
  ∀ key owner, mapping !! key = Some owner →
    lower key = key ∧ nonempty key = true ∧ nonempty owner = true.

(** [d.get(key, default)] on the fields of a decoded object. *)
Definition field (d : gmap string json) (key : string) (default : json) : json :=
  from_option id default (d !! key).

(** ** Reading an audit comment back *)

Record audit : Type := {
  audit_topic : string;
  audit_owner : string;
  audit_confidence : string;
  audit_secondary : option string;
  audit_rationale : string;
}.

Module Audit.

Definition header : string := "**Auto-triage classification**".
Definition bucket_label : string := "- **Bucket:** ".
Definition owner_label : string := "- **Assigned to:** ".
Definition confidence_label : string := "- **Confidence:** ".
Definition secondary_label : string := "- **Alternative bucket:** ".
Definition rationale_label : string := "- **Reasoning:** ".

(** No line feed in [s]. *)
Fixpoint single_line (s : string) : bool :=
  match s with
  | EmptyString => true
  | String c r => negb (Ascii.eqb c "010") && single_line r
  end.

(** The first line of [s] and what follows its line feed. *)
Fixpoint split_line (s : string) : string * option string :=
  match s with
  | EmptyString => (EmptyString, None)
  | String c r =>
      if Ascii.eqb c "010" then (EmptyString, Some r)
      else let (line, rest) := split_line r in (String c line, rest)
  end.

(** [s] without the prefix [p]. *)
Fixpoint strip_prefix (p s : string) : option string :=
  match p, s with
  | EmptyString, _ => Some s
  | String _ _, EmptyString => None
  | String a p', String b s' =>
      if Ascii.eqb a b then strip_prefix p' s' else None
  end.

(** A line that starts with [label] and is followed by more lines: the
    rest of the line and the lines after it. *)
Definition field_line (label text : string) : option (string * string) :=
  let (line, rest) := split_line text in
  value ← strip_prefix label line;
  rest ← rest;
  Some (value, rest).

Definition parse (text : string) : option audit :=
  '(title, text) ← field_line EmptyString text;
  '(blank, text) ← field_line EmptyString text;
  if negb (String.eqb title header && String.eqb blank EmptyString) then None
  else
    '(topic, text) ← field_line bucket_label text;
    '(owner, text) ← field_line owner_label text;
    '(confidence, text) ← field_line confidence_label text;
    match field_line secondary_label text with
    | Some (secondary, text) =>
        rationale ← strip_prefix rationale_label text;
        Some {| audit_topic := topic;
                audit_owner := owner;
                audit_confidence := confidence;
                audit_secondary := Some secondary;
                audit_rationale := rationale |}
    | None =>
        rationale ← strip_prefix rationale_label text;
        Some {| audit_topic := topic;
                audit_owner := owner;
                audit_confidence := confidence;
                audit_secondary := None;
                audit_rationale := rationale |}
    end.

End Audit.

(** ** Reading a log of calls *)

Module Trace.

Definition is_model_call (e : event) : bool :=
  match e with
  | MessagesCreate _ _ _ => true
  | _ => false
  end.

(** The memoized label identifier after the calls of [log], from [memo]
    before them. There is none when a lookup is made while an identifier
    is memoized, or when an issue is assigned with labels other than the
    memoized identifier alone. *)
Fixpoint memo_after (memo : option string) (log : list event)
  : option (option string) :=
  match log with
  | [] => Some memo
  | GetOrCreateLabel _ _ reply :: rest =>
      match memo with
      | Some _ => None
      | None =>
          memo_after (match reply with Ok id => Some id | Raise _ => None end)
            rest
      end
  | AssignIssue _ _ (Some label_ids) _ :: rest =>
      match memo with
      | Some id =>
          if bool_decide (label_ids = [id]) then memo_after memo rest else None
      | None => None
      end
  | _ :: rest => memo_after memo rest
  end.

(** Every lookup of [log] that succeeds is followed at once by the
    assignment of an issue with the identifier found. *)
Fixpoint lookups_used (log : list event) : bool :=
  match log with
  | [] => true
  | GetOrCreateLabel _ _ (Ok id) :: rest =>
      match rest with
      | AssignIssue _ _ (Some label_ids) _ :: _ =>
          bool_decide (label_ids = [id]) && lookups_used rest
      | _ => false
      end
  | _ :: rest => lookups_used rest
  end.

(** Whether the reply of the model is classified with a low confidence. *)
Definition low_confidence (py : runtime) (bucket_names : list string)
    (bucket_mapping : gmap string string) (reply : result string) : bool :=
  match reply ≫= λ raw, interpret py raw bucket_names bucket_mapping with
  | Ok c => Json.eq_str (confidence c) "low"
  | Raise _ => false
  end.

(** Every assignment of [log] carries labels exactly when [low] holds of
    the reply to the last call of the model before it; [current] is what
    [low] gives for the reply before [log]. *)
Fixpoint labels_follow (low : result string → bool) (current : bool)
    (log : list event) : bool :=
  match log with
  | [] => true
  | MessagesCreate _ _ reply :: rest => labels_follow low (low reply) rest
  | AssignIssue _ _ label_ids _ :: rest =>
      Bool.eqb (match label_ids with Some _ => true | None => false end)
        current
      && labels_follow low current rest
  | _ :: rest => labels_follow low current rest
  end.

End Trace.

(** How the entry of a dry run stands to the entry of a run that executes,
    for the same issue and the same classification. *)
Inductive dry_real : report → report → Prop :=
| dry_real_same r :
    rep_action r = "skipped" ∨ rep_action r = "error" → dry_real r r
| dry_real_assigned identifier title bucket owner confidence :
    dry_real
      {| rep_identifier := identifier;
         rep_title := title;
         rep_bucket := Some bucket;
         rep_owner := Some owner;
         rep_confidence := Some confidence;
         rep_action := "would_assign";
         rep_reason := None |}
      {| rep_identifier := identifier;
         rep_title := title;
         rep_bucket := Some bucket;
         rep_owner := Some owner;
         rep_confidence := Some confidence;
         rep_action := "assigned";
         rep_reason := None |}
| dry_real_failed identifier title bucket owner confidence message :
    dry_real
      {| rep_identifier := identifier;
         rep_title := title;
         rep_bucket := Some bucket;
         rep_owner := Some owner;
         rep_confidence := Some confidence;
         rep_action := "would_assign";
         rep_reason := None |}
      {| rep_identifier := identifier;
         rep_title := title;
         rep_bucket := Some bucket;
         rep_owner := Some owner;
         rep_confidence := None;
         rep_action := "error";
         rep_reason := Some message |}.

(** The entry that a dry run adds for an issue without assignee, once it
    is classified. *)
Definition preview (bucket_mapping : gmap string string)
    (member_lookup : gmap string member)
    (i : issue) (classification : ClassificationResult) : report :=
  let bucket := primary_bucket classification in
  match resolve_owner_name bucket_mapping (title i) bucket with
  | None | Some EmptyString => no_owner_entry i bucket
  | Some owner_name =>
      match find_member member_lookup owner_name with
      | None => no_member_entry i bucket owner_name
      | Some m => member_entry i bucket m classification "would_assign" None
      end
  end.

(** [main]: [dry_run = not args.execute], where [--execute] is off unless
    it is given; [process_issues] itself has [dry_run = True] by default. *)
Definition dry_run_mode (execute : bool) : bool := negb execute.

(** ** Sample data *)

Module Samples.

(** [s] between double quotes. *)
Definition quoted (s : string) : string :=
  String "034" (s ++ String "034" EmptyString).

(** A JSON object text with the given members, values already written. *)
Fixpoint members (kvs : list (string * string)) : string :=
  match kvs with
  | [] => EmptyString
  | [(k, v)] => quoted k ++ ": " ++ v
  | (k, v) :: rest => quoted k ++ ": " ++ v ++ ", " ++ members rest
  end.

Definition object (kvs : list (string * string)) : string :=
  "{" ++ members kvs ++ "}".

(** A decoder that knows the texts of a table and rejects every other
    text. *)
Fixpoint decode (table : list (string * json)) (s : string) : option json :=
  match table with
  | [] => None
  | (text, value) :: rest =>
      if String.eqb text s then Some value else decode rest s
  end.

Definition python (table : list (string * json)) : runtime :=
  {| json_loads := decode table;
     json_error := fun _ => None;
     repr := fun _ => "<value>";
     key_order := fun mapping => elements (dom mapping) |}.

Definition topic (name owner : string) : row :=
  {| Name := Text name; Owner := Text owner; Note := Text EmptyString |}.

(** A catalog whose only row has a name and no owner. *)
Definition ownerless_rows : list row := [ topic "Storage" "" ].

Definition storage_rows : list row := [ topic "Storage" "Owner A" ].

Definition storage_reply : string :=
  object [ ("primary_bucket", quoted "STORAGE");
           ("secondary_bucket", "null");
           ("confidence", quoted "high");
           ("reasoning", quoted "about files") ].

Definition storage_fields : gmap string json :=
  {[ "primary_bucket" := JStr "STORAGE";
     "secondary_bucket" := JNull;
     "confidence" := JStr "high";
     "reasoning" := JStr "about files" ]}.

Definition billing_rows : list row :=
  [ topic "Billing" "Owner C"; topic "Pricing" "Owner C" ].

Definition billing_reply (confidence : string) : string :=
  object [ ("primary_bucket", quoted "Billing");
           ("secondary_bucket", quoted "Pricing");
           ("confidence", quoted confidence);
           ("reasoning", quoted "an invoice") ].

Definition billing_fields (confidence : string) : gmap string json :=
  {[ "primary_bucket" := JStr "Billing";
     "secondary_bucket" := JStr "Pricing";
     "confidence" := JStr confidence;
     "reasoning" := JStr "an invoice" ]}.

Definition billing_python (confidence : string) : runtime :=
  python [ (billing_reply confidence, JObj (billing_fields confidence)) ].

Definition medium_reply : string :=
  object [ ("primary_bucket", quoted "UX"); ("confidence", quoted "medium") ].

Definition medium_fields : gmap string json :=
  {[ "primary_bucket" := JStr "UX"; "confidence" := JStr "medium" ]}.

(** A reply that is prose inside a code fence. *)
Definition fenced_prose : string :=
  "```json" ++ String "010" "Sure, here's my answer: Billing"
    ++ String "010" "```".

(** A team, a catalog with two owners, and a tracker and a model that
    always answer the same. *)
Definition ann : member :=
  {| member_id := "u1"; member_name := "Ann"; member_email := "ann@example.com" |}.

Definition bob : member :=
  {| member_id := "u2"; member_name := "Bob"; member_email := "bob@example.com" |}.

Definition team : list member := [ ann; bob ].

Definition review_mapping : gmap string string :=
  {[ "billing" := "Ann"; "pricing" := "Bob" ]}.

Definition ticket (n title : string) (assignee : option user) : issue :=
  {| issue_id := "id-" ++ n;
     identifier := "PROF-" ++ n;
     title := title;
     description := None;
     assignee := assignee;
     labels := [] |}.

Definition tickets : list issue :=
  [ ticket "1" "Invoice is wrong" None;
    ticket "2" "Refund is missing" None;
    ticket "3" "Login fails"
      (Some {| user_id := "u2"; user_name := "Bob" |}) ].

Definition tracker : services :=
  {| messages_create := fun _ _ _ => Ok (billing_reply "low");
     get_or_create_label := fun _ _ _ => Ok "label-1";
     assign_issue := fun _ _ _ _ => Ok ();
     add_comment := fun _ _ _ => Ok () |}.

(** The issue of a feature request, a team with the owner of the feature
    under the name the tracker displays, and a model that answers with the
    storage topic. *)
Definition zuzana : member :=
  {| member_id := "u3";
     member_name := "Zuzana BednÃ¡Å™ovÃ¡";
     member_email := "zuzana@example.com" |}.

Definition feature_ticket : issue :=
  ticket "7" "Add Native Datatypes support" None.

Definition storage_python : runtime :=
  python [ (storage_reply, JObj storage_fields) ].

Definition storage_tracker : services :=
  {| messages_create := fun _ _ _ => Ok storage_reply;
     get_or_create_label := fun _ _ _ => Ok "label-1";
     assign_issue := fun _ _ _ _ => Ok ();
     add_comment := fun _ _ _ => Ok () |}.

(** A tracker whose first lookup of a label fails. *)
Definition flaky_tracker : services :=
  {| messages_create := fun _ _ _ => Ok (billing_reply "low");
     get_or_create_label := fun log _ _ =>
       if existsb (λ e, match e with
                        | GetOrCreateLabel _ _ _ => true
                        | _ => false
                        end) log
       then Ok "label-1"
       else Raise (ServiceError "timeout");
     assign_issue := fun _ _ _ _ => Ok ();
     add_comment := fun _ _ _ => Ok () |}.

(** The runs on the sample tickets, and their entries. *)
Definition run (sv : services) (dry_run : bool)
  : result (list report) * list event :=
  process_issues (billing_python "low") sv tickets review_mapping "" team
    "team" dry_run [].

Definition entries (outcome : result (list report) * list event)
  : list report :=
  match fst outcome with
  | Ok results => results
  | Raise _ => []
  end.

(** A model that cannot be reached. *)
Definition silent_tracker : services :=
  {| messages_create := fun _ _ _ => Raise (ServiceError "overloaded");
     get_or_create_label := fun _ _ _ => Ok "label-1";
     assign_issue := fun _ _ _ _ => Ok ();
     add_comment := fun _ _ _ => Ok () |}.

(** The classification of the sample tickets. *)
Definition billing_result : ClassificationResult :=
  {| primary_bucket := "billing";
     secondary_bucket := JStr "Pricing";
     confidence := JStr "low";
     reasoning := JStr "an invoice" |}.

End Samples.

(** ** Bucket descriptions *)

(** One turn of the loop over the rows in [get_bucket_descriptions]: the
    line of the row, when the row has a name. *)
Definition describe_row (r : row) : result (option string) :=
  name ← cell_strip (Name r);
  note ← cell_strip (Note r);
  if nonempty name then
    if nonempty note then Ok (Some ("- " ++ name ++ ": " ++ note))
    else Ok (Some ("- " ++ name))
  else Ok None.

Fixpoint describe_rows (buckets : list string) (rows : list row)
  : result (list string) :=
  match rows with
  | [] => Ok buckets
  | r :: rest =>
      line ← describe_row r;
      describe_rows
        (match line with
         | Some line => append buckets line
         | None => buckets
         end) rest
  end.

Definition get_bucket_descriptions (src : source) : result string :=
  match src with
  | Unreadable => Raise OSError
  | Rows rows => buckets ← describe_rows [] rows; Ok (join_lines buckets)
  | Interrupted rows e => _ ← describe_rows [] rows; Raise e
  end.

(** ** The summary of a run *)

Record summary : Type := {
  sum_assigned : nat;
  sum_high_conf : nat;
  sum_low_conf : nat;
  sum_skipped : nat;
  sum_errors : nat;
}.

(** [r["action"] == action] *)
Definition action_is (action : string) (r : report) : bool :=
  String.eqb (rep_action r) action.

(** [r.get("confidence") == tier] *)
Definition confidence_is (tier : string) (r : report) : bool :=
  match rep_confidence r with
  | Some v => Json.eq_str v tier
  | None => false
  end.

(** The counts that [main] prints. *)
Definition summarize (results : list report) : summary :=
  let assigned :=
    List.filter (λ r, action_is "assigned" r || action_is "would_assign" r)
      results in
  {| sum_assigned := length assigned;
     sum_high_conf := length (List.filter (confidence_is "high") assigned);
     sum_low_conf := length (List.filter (confidence_is "low") assigned);
     sum_skipped := length (List.filter (action_is "skipped") results);
     sum_errors := length (List.filter (action_is "error") results) |}.

(** ** The client of the tracker *)

Module Linear.

(** What the methods of [LinearClient] raise. *)
Inductive error : Type :=
| KeyError (key : string)
| IndexError
| TypeError
| RequestError (msg : string)
| GraphQLErrors (msg : string).

Inductive outcome (A : Type) : Type :=
| Return (a : A)
| Throw (e : error).
Arguments Return {A} a.
Arguments Throw {A} e.

#[global] Instance outcome_bind : MBind outcome := fun _ _ k r =>
  match r with
  | Return a => k a
  | Throw e => Throw e
  end.

(** [v[key]] for a string [key]. *)
Definition item (v : json) (key : string) : outcome json :=
  match v with
  | JObj fields =>
      match fields !! key with
      | Some x => Return x
      | None => Throw (KeyError key)
      end
  | _ => Throw TypeError
  end.

(** [v[0]] *)
Definition first (v : json) : outcome json :=
  match v with
  | JArr (x :: _) => Return x
  | JArr [] => Throw IndexError
  | JStr (String c _) => Return (JStr (String c EmptyString))
  | JStr EmptyString => Throw IndexError
  | JObj _ => Throw (KeyError "0")
  | _ => Throw TypeError
  end.

(** [key in v] for a string [key]. *)
Definition has (v : json) (key : string) : outcome bool :=
  match v with
  | JObj fields => Return (bool_decide (is_Some (fields !! key)))
  | JArr items => Return (existsb (λ x, Json.eq_str x key) items)
  | JStr s => Return (contains key s)
  | _ => Throw TypeError
  end.

(** The GraphQL documents that the client sends. *)
Inductive operation : Type :=
| QGetLabel
| QCreateLabel.

Record request : Type := {
  req_operation : operation;
  req_variables : gmap string json;
}.

(** What [requests.post] gives: a failure (the call, the status check or
    the decoding of the body raised) or the decoded body. *)
Inductive http_reply : Type :=
| Failure (msg : string)
| Body (result : json).

(** The server: its reply to a request, after the exchanges so far. *)
Definition transport : Type := list (request * http_reply) → request → http_reply.

(** Computations of the client: the exchanges are threaded through. *)
Definition C (A : Type) : Type :=
  list (request * http_reply) → outcome A * list (request * http_reply).

Definition ret {A} (a : A) : C A := fun log => (Return a, log).

Definition bind {A B} (m : C A) (k : A → C B) : C B := fun log =>
  match m log with
  | (Return a, log') => k a log'
  | (Throw e, log') => (Throw e, log')
  end.

Definition lift {A} (r : outcome A) : C A := fun log => (r, log).

(** What [_query] makes of a reply. *)
Definition query_result (py : runtime) (reply : http_reply) : outcome json :=
  match reply with
  | Failure msg => Throw (RequestError msg)
  | Body result =>
      errors ← has result "errors";
      if errors : bool then
        e ← item result "errors";
        Throw (GraphQLErrors ("GraphQL errors: " ++ format_value py e))
      else item result "data"
  end.

Definition _query (py : runtime) (server : transport)
    (query : operation) (variables : gmap string json) : C json := fun log =>
  let req := {| req_operation := query; req_variables := variables |} in
  let reply := server log req in
  (query_result py reply, (log ++ [(req, reply)])%list).

Definition get_or_create_label (py : runtime) (server : transport)
    (team_id label_name : string) : C json :=
  bind (_query py server QGetLabel
          {[ "teamId" := JStr team_id; "labelName" := JStr label_name ]})
    (λ data,
  bind (lift (item data "issueLabels" ≫= λ v, item v "nodes")) (λ labels,
  if Json.truthy labels then
    lift (first labels ≫= λ label, item label "id")
  else
    bind (_query py server QCreateLabel
            {[ "teamId" := JStr team_id; "name" := JStr label_name ]})
      (λ data,
    lift (item data "issueLabelCreate" ≫= λ v, item v "issueLabel"
            ≫= λ v, item v "id")))).

End Linear.

(** ** Names a member answers to *)

(** The keys under which [member_lookup] files a member: the name in lower
    case, and the lower case of every spelling that [OWNER_NAME_MAP] gives
    for the name. *)
Definition answers_to (m : member) (key : string) : Prop :=
  lower (member_name m) = key ∨
  ∃ csv_name, (csv_name, member_name m) ∈ OWNER_NAME_MAP ∧
              lower csv_name = key.

(** ** Calls to the tracker in a log *)

Module Calls.

(** A comment that the tracker accepted. *)
Definition is_comment_added (e : event) : bool :=
  match e with
  | AddComment _ _ (Ok _) => true
  | _ => false
  end.

(** Every comment of [log] is sent right after the assignment of the same
    issue succeeded; [assigned] is the issue whose assignment succeeded in
    the call before [log], if any. *)
Fixpoint comments_follow_from (assigned : option string) (log : list event)
  : bool :=
  match log with
  | [] => true
  | AssignIssue i _ _ (Ok _) :: rest => comments_follow_from (Some i) rest
  | AddComment i _ _ :: rest =>
      match assigned with
      | Some i' => String.eqb i' i && comments_follow_from None rest
      | None => false
      end
  | _ :: rest => comments_follow_from None rest
  end.

Definition comments_follow (log : list event) : bool :=
  comments_follow_from None log.

(** The actions that the entries of a run can have, by mode. *)
Definition action_of (dry_run : bool) (r : report) : Prop :=
  rep_action r = "skipped" ∨ rep_action r = "error" ∨
  rep_action r = (if dry_run then "would_assign" else "assigned").

(** What holds of the entry [r] and of the calls [new] that a turn adds for
    the issue [i]. *)
Definition settled (dry_run : bool) (i : issue) (r : report)
    (new : list event) : Prop :=
  rep_identifier r = identifier i ∧
  rep_title r = title i ∧
  action_of dry_run r ∧
  length (List.filter is_comment_added new)
    = (if String.eqb (rep_action r) "assigned" then 1 else 0) ∧
  comments_follow new = true.

End Calls.

(** * Properties *)

(** ** Strings *)

Lemma lower_char_idem c : lower_char (lower_char c) = lower_char c.
Proof. destruct c as [[] [] [] [] [] [] [] []]; reflexivity. Qed.

Lemma lower_idem s : lower (lower s) = lower s.
Proof. induction s as [|c s IH]; simpl; [done|]. by rewrite lower_char_idem, IH. Qed.

Lemma nonempty_lower s : nonempty (lower s) = nonempty s.
Proof. by destruct s. Qed.

Lemma nonempty_true s : nonempty s = true ↔ s ≠ EmptyString.
Proof. destruct s; simpl; split; intros; congruence. Qed.

(** ** The catalog loader *)

Lemma load_row_unusable mapping r :
  usable r = false →
  load_row mapping r = if short r then Raise AttributeError else Ok mapping.
Proof.
  unfold usable, short, load_row.
  destruct (Name r) as [| |name], (Owner r) as [| |owner]; simpl; try done.
  - by destruct (nonempty (strip name)).
  - by intros ->.
Qed.

Lemma load_rows_unusable mapping rows :
  Forall (λ r, usable r = false) rows →
  load_rows mapping rows =
    if existsb short rows then Raise AttributeError else Ok mapping.
Proof.
  induction 1 as [|r rows Hr _ IH]; simpl; [done|].
  rewrite (load_row_unusable _ _ Hr).
  destruct (short r); simpl; [done|]. apply IH.
Qed.

Lemma load_row_routable mapping r mapping' :
  routable mapping → load_row mapping r = Ok mapping' → routable mapping'.
Proof.
  unfold load_row. intros Hm.
  destruct (cell_strip (Name r)) as [name|]; simpl; [|done].
  destruct (cell_strip (Owner r)) as [owner|]; simpl; [|done].
  destruct (nonempty name) eqn:Hname; simpl; [|by intros [= <-]].
  destruct (nonempty owner) eqn:Howner; simpl; [|by intros [= <-]].
  intros [= <-] key o. rewrite lookup_insert_Some.
  intros [[<- <-]|[_ Hk]]; [|by apply Hm].
  by rewrite lower_idem, nonempty_lower.
Qed.

Lemma load_rows_routable rows : ∀ mapping mapping',
  routable mapping → load_rows mapping rows = Ok mapping' → routable mapping'.
Proof.
  induction rows as [|r rows IH]; simpl; intros mapping mapping' Hm.
  - by intros [= <-].
  - destruct (load_row mapping r) as [m1|] eqn:Hr; simpl; [|done].
    apply IH. by eapply load_row_routable.
Qed.

Lemma load_bucket_mapping_routable src mapping :
  load_bucket_mapping src = Ok mapping → routable mapping.
Proof.
  destruct src as [|rows|rows e]; simpl; [done| |by destruct (load_rows ∅ rows)].
  apply load_rows_routable. intros key owner. by rewrite lookup_empty.
Qed.

(** C3, as amended. An unreadable source makes the loader fail with the
    error of [open]. A readable source without a usable row does not make
    it fail for that reason: the loader returns the empty mapping, unless a
    row is too short to hold the name or the owner, which raises an
    [AttributeError]. *)
Theorem load_bucket_mapping_no_usable_row (rows : list row)
    (Hrows : Forall (λ r, usable r = false) rows) :
  load_bucket_mapping Unreadable = Raise OSError ∧
  load_bucket_mapping (Rows rows) =
    if existsb short rows then Raise AttributeError else Ok ∅.
Proof. split; [done|]. by apply load_rows_unusable. Qed.

Lemma load_bucket_mapping_no_usable_row_witness :
  Forall (λ r, usable r = false) Samples.ownerless_rows ∧
  load_bucket_mapping Unreadable = Raise OSError ∧
  load_bucket_mapping (Rows Samples.ownerless_rows) = Ok ∅.
Proof.
  split; [by repeat constructor|].
  apply (load_bucket_mapping_no_usable_row Samples.ownerless_rows).
  by repeat constructor.
Defined.

(** C3, as stated, fails: a source whose only row has no owner has no
    usable row, and the loader returns the empty mapping. *)
Lemma load_bucket_mapping_returns_empty :
  existsb usable Samples.ownerless_rows = false ∧
  load_bucket_mapping (Rows Samples.ownerless_rows) = Ok ∅.
Proof. split; reflexivity. Qed.

(** ** Interpretation of the model's reply *)

Lemma match_bucket_spec bucket_names primary_lower primary :
  match_bucket bucket_names primary_lower primary = primary ∧
    (∀ name, name ∈ bucket_names → lower name ≠ primary_lower)
  ∨ match_bucket bucket_names primary_lower primary ∈ bucket_names ∧
    lower (match_bucket bucket_names primary_lower primary) = primary_lower.
Proof.
  induction bucket_names as [|name rest IH]; simpl.
  - left. split; [done|]. intros name. by rewrite elem_of_nil.
  - destruct (String.eqb_spec (lower name) primary_lower) as [Heq|Hne].
    + right. split; [apply list_elem_of_here|done].
    + destruct IH as [[-> Hrest]|[Hin Hlow]].
      * left. split; [done|]. intros n. rewrite elem_of_cons.
        intros [->|Hn]; [done|by apply Hrest].
      * right. split; [by apply list_elem_of_further|done].
Qed.

Lemma lower_match_bucket bucket_names primary :
  lower (match_bucket bucket_names (lower primary) primary) = lower primary.
Proof.
  by destruct (match_bucket_spec bucket_names (lower primary) primary)
    as [[-> _]|[_ ->]].
Qed.

(** With the names of a routable mapping, a primary bucket that names a key
    up to case is replaced by that key. *)
Lemma match_bucket_key mapping bucket_names primary :
  routable mapping →
  (∀ name, name ∈ bucket_names ↔ is_Some (mapping !! name)) →
  is_Some (mapping !! lower primary) →
  match_bucket bucket_names (lower primary) primary = lower primary.
Proof.
  intros Hm Hnames Hkey.
  destruct (match_bucket_spec bucket_names (lower primary) primary)
    as [[_ Hnone]|[Hin Hlow]].
  - destruct Hkey as [owner Hkey].
    destruct (Hm _ _ Hkey) as (Hfix & _).
    exfalso. apply (Hnone (lower primary)); [|done].
    apply Hnames. by exists owner.
  - apply Hnames in Hin as [owner Hin].
    destruct (Hm _ _ Hin) as (Hfix & _). congruence.
Qed.

Lemma reconcile_not_low mapping primary secondary confidence :
  Json.eq_str confidence "low" = false →
  reconcile mapping primary secondary confidence = Ok confidence.
Proof. unfold reconcile. intros ->. by rewrite andb_false_r. Qed.

Lemma reconcile_no_secondary mapping primary secondary confidence :
  Json.truthy secondary = false →
  reconcile mapping primary secondary confidence = Ok confidence.
Proof. unfold reconcile. by intros ->. Qed.

Lemma reconcile_same_owner mapping primary secondary owner :
  routable mapping →
  mapping !! lower primary = Some owner →
  mapping !! lower secondary = Some owner →
  reconcile mapping primary (JStr secondary) (JStr "low") = Ok (JStr "high").
Proof.
  intros Hm Hp Hs. unfold reconcile.
  destruct (Hm _ _ Hs) as (_ & Hkey & Howner).
  rewrite nonempty_lower in Hkey. simpl. rewrite Hkey. simpl.
  rewrite Hp, Hs. simpl. by rewrite Howner, String.eqb_refl.
Qed.

(** The reply when [json.loads] rejects the text. *)
Lemma interpret_decode_error py raw bucket_names mapping :
  json_loads py (unfence (strip raw)) = None →
  json_error py (unfence (strip raw)) = None →
  interpret py raw bucket_names mapping =
    Ok {| primary_bucket := unfence (strip raw);
          secondary_bucket := JNull;
          confidence := JStr "low";
          reasoning := JStr "Failed to parse AI response" |}.
Proof. unfold interpret. by intros -> ->. Qed.

(** The exceptions of [json.loads] other than the decoding error are not
    caught. *)
Lemma interpret_decoder_raises py raw bucket_names mapping e :
  json_loads py (unfence (strip raw)) = None →
  json_error py (unfence (strip raw)) = Some e →
  interpret py raw bucket_names mapping = Raise e.
Proof. unfold interpret. by intros -> ->. Qed.

(** A reply that is not fenced is only trimmed. *)
Lemma unfence_plain text :
  startswith "```" text = false → unfence text = text.
Proof. unfold unfence. by intros ->. Qed.

(** The reply when the text decodes to an object whose primary bucket is a
    string. *)
Lemma interpret_object py raw bucket_names mapping d primary :
  json_loads py (unfence (strip raw)) = Some (JObj d) →
  field d "primary_bucket" (JStr "UX") = JStr primary →
  interpret py raw bucket_names mapping =
    let bucket := match_bucket bucket_names (lower primary) primary in
    confidence ←
      reconcile mapping bucket (field d "secondary_bucket" JNull)
        (field d "confidence" (JStr "low"));
    Ok {| primary_bucket := bucket;
          secondary_bucket := field d "secondary_bucket" JNull;
          confidence := confidence;
          reasoning := field d "reasoning" (JStr EmptyString) |}.
Proof.
  unfold interpret, field. intros -> Hp. simpl.
  unfold mbind, result_bind. simpl. by rewrite Hp.
Qed.

(** A decoded value that is not an object makes the interpreter raise. *)
Lemma interpret_not_object py raw bucket_names mapping v :
  json_loads py (unfence (strip raw)) = Some v →
  (∀ d, v ≠ JObj d) →
  interpret py raw bucket_names mapping = Raise AttributeError.
Proof.
  unfold interpret. intros -> Hv. destruct v; try done. by destruct (Hv fields).
Qed.

(** The confidence of the result is high or low when decoding fails, and
    when the confidence that the model reported is high, low or absent. *)
Lemma interpret_confidence_enum py raw bucket_names mapping c :
  interpret py raw bucket_names mapping = Ok c →
  match json_loads py (unfence (strip raw)) with
  | Some (JObj d) =>
      field d "confidence" (JStr "low") = JStr "high" ∨
      field d "confidence" (JStr "low") = JStr "low"
  | _ => True
  end →
  confidence c = JStr "high" ∨ confidence c = JStr "low".
Proof.
  unfold interpret, field. intros Hc Hreported.
  destruct (json_loads py (unfence (strip raw))) as [[| | | | | |d]|];
    simpl in Hc; try done.
  - unfold mbind, result_bind in Hc. simpl in Hc.
    destruct (default (JStr "UX") (d !! "primary_bucket")); simpl in Hc;
      try done.
    destruct (reconcile _ _ _ _) as [confidence|] eqn:Hr; [|done].
    injection Hc as <-. simpl.
    destruct Hreported as [Hrep|Hrep]; rewrite Hrep in Hr.
    + rewrite reconcile_not_low in Hr by done. injection Hr as <-. by left.
    + unfold reconcile in Hr.
      destruct (Json.truthy _ && _); [|injection Hr as <-; by right].
      destruct (Json.lower _); simpl in Hr; [|done].
      destruct (_ && _ && _); injection Hr as <-; auto.
  - destruct (json_error py (unfence (strip raw))); [done|].
    injection Hc as <-. by right.
Qed.




(** C2, as amended. With a catalog built by the loader and a reply of the
    expected shape that names a topic of the catalog in any casing, the
    primary bucket of the result is the key of the catalog for that topic:
    the name in lower case. *)
Theorem primary_bucket_is_catalog_key py src mapping raw bucket_names d primary
    (Hload : load_bucket_mapping src = Ok mapping)
    (Hnames : ∀ name, name ∈ bucket_names ↔ is_Some (mapping !! name))
    (Hdecode : json_loads py (unfence (strip raw)) = Some (JObj d))
    (Hprimary : field d "primary_bucket" (JStr "UX") = JStr primary)
    (Hsecondary : field d "secondary_bucket" JNull = JNull ∨
                  ∃ s, field d "secondary_bucket" JNull = JStr s)
    (Htopic : is_Some (mapping !! lower primary)) :
  ∃ c, interpret py raw bucket_names mapping = Ok c ∧
       primary_bucket c = lower primary ∧
       primary_bucket c ∈ bucket_names.
Proof.
  apply load_bucket_mapping_routable in Hload.
  rewrite (interpret_object _ _ _ _ _ _ Hdecode Hprimary). simpl.
  rewrite (match_bucket_key mapping) by done.
  assert (∃ confidence,
    reconcile mapping (lower primary) (field d "secondary_bucket" JNull)
      (field d "confidence" (JStr "low")) = Ok confidence) as [confidence ->].
  { destruct Hsecondary as [-> | [s ->]].
    - rewrite reconcile_no_secondary by done. by eexists.
    - unfold reconcile. simpl.
      repeat match goal with |- context [if ?b then _ else _] => destruct b end;
        by eexists. }
  simpl. eexists. split; [done|]. split; [done|]. simpl. by apply Hnames.
Qed.

Lemma primary_bucket_is_catalog_key_witness :
  ∃ c, interpret (Samples.python [ (Samples.storage_reply,
                                    JObj Samples.storage_fields) ])
         Samples.storage_reply [ "storage" ] {[ "storage" := "Owner A" ]} = Ok c ∧
       primary_bucket c = "storage" ∧
       primary_bucket c ∈ [ "storage" ].
Proof.
  apply (primary_bucket_is_catalog_key _ (Rows Samples.storage_rows) _ _ _
           Samples.storage_fields "STORAGE").
  - reflexivity.
  - intros name. rewrite list_elem_of_singleton. split.
    + intros ->. by eexists.
    + intros [owner Hname]. apply lookup_singleton_Some in Hname. by destruct Hname.
  - reflexivity.
  - reflexivity.
  - by left.
  - by eexists.
Defined.

(** C2, as stated, fails: the source names the topic [Storage], the key of
    the loaded mapping is [storage], and that key, not the name of the
    source, becomes the primary bucket. *)
Lemma primary_bucket_loses_source_casing :
  Name (Samples.topic "Storage" "Owner A") = Text "Storage" ∧
  (mapping ← load_bucket_mapping (Rows Samples.storage_rows);
   c ← interpret (Samples.python [ (Samples.storage_reply,
                                    JObj Samples.storage_fields) ])
         Samples.storage_reply
         (elements (dom mapping)) mapping;
   Ok (primary_bucket c))
  = Ok "storage" ∧
  "storage" ≠ "Storage".
Proof. split; [done|]. split; [vm_compute; reflexivity|done]. Qed.

(** C4: a reply whose confidence is neither high nor low yields a result
    with that confidence. *)
Theorem confidence_outside_enum :
  (c ← interpret (Samples.python [ (Samples.medium_reply,
                                    JObj Samples.medium_fields) ])
         Samples.medium_reply [] ∅;
   Ok (confidence c)) = Ok (JStr "medium") ∧
  JStr "medium" ≠ JStr "high" ∧ JStr "medium" ≠ JStr "low".
Proof. split; [vm_compute; reflexivity|]. split; discriminate. Qed.

(** C7: for a reply that is prose inside a code fence, decoding fails and
    the primary bucket is the inside of the fence, not the reply. *)
Theorem fenced_prose_primary_bucket :
  interpret (Samples.python []) Samples.fenced_prose [] ∅ =
    Ok {| primary_bucket :=
            String "010" "Sure, here's my answer: Billing" ++ String "010" "";
          secondary_bucket := JNull;
          confidence := JStr "low";
          reasoning := JStr "Failed to parse AI response" |} ∧
  String "010" "Sure, here's my answer: Billing" ++ String "010" ""
    ≠ Samples.fenced_prose.
Proof. split; [vm_compute; reflexivity|]. vm_compute. discriminate. Qed.

(** ** The audit comment *)

Lemma single_line_app a b :
  Audit.single_line (a ++ b) = Audit.single_line a && Audit.single_line b.
Proof.
  induction a as [|c a IH]; simpl; [done|]. by rewrite IH, andb_assoc.
Qed.

Lemma split_line_app line rest :
  Audit.single_line line = true →
  Audit.split_line (line ++ String "010" rest) = (line, Some rest).
Proof.
  induction line as [|c line IH]; simpl; [done|].
  intros [Hc Hline]%andb_true_iff. apply negb_true_iff in Hc.
  by rewrite Hc, IH.
Qed.

Lemma strip_prefix_app p s : Audit.strip_prefix p (p ++ s) = Some s.
Proof.
  induction p as [|c p IH]; simpl; [by destruct s|].
  by rewrite Ascii.eqb_refl.
Qed.

Lemma field_line_app label value rest :
  Audit.single_line label = true →
  Audit.single_line value = true →
  Audit.field_line label ((label ++ value) ++ String "010" rest)
  = Some (value, rest).
Proof.
  intros Hl Hv. unfold Audit.field_line.
  rewrite split_line_app by (by rewrite single_line_app, Hl, Hv).
  by rewrite strip_prefix_app.
Qed.

Lemma split_line_prefix p s :
  Audit.single_line p = true →
  Audit.split_line (p ++ s) =
    (p ++ fst (Audit.split_line s), snd (Audit.split_line s)).
Proof.
  induction p as [|c p IH]; intros Hp.
  - change (EmptyString ++ ?x) with x. by destruct (Audit.split_line s).
  - change (String c p ++ ?x) with (String c (p ++ x)).
    simpl in *. apply andb_true_iff in Hp as [Hc Hp].
    apply negb_true_iff in Hc. by rewrite Hc, IH.
Qed.

(** The line of the rationale is not taken for the line of a secondary
    bucket. *)
Lemma field_line_rationale rationale :
  Audit.field_line Audit.secondary_label (Audit.rationale_label ++ rationale)
  = None.
Proof.
  unfold Audit.field_line. by rewrite split_line_prefix.
Qed.

(** The lines of the audit comment, in order. *)
Lemma comment_body_lines py bucket name c :
  comment_body py bucket name c =
    join_lines
      (app
         [ Audit.header;
           EmptyString;
           Audit.bucket_label ++ bucket;
           Audit.owner_label ++ name;
           Audit.confidence_label ++ format_value py (confidence c) ]
         (app
            (if Json.truthy (secondary_bucket c)
             then [ Audit.secondary_label
                      ++ format_value py (secondary_bucket c) ]
             else [])
            [ Audit.rationale_label ++ format_value py (reasoning c) ])).
Proof. unfold comment_body. by destruct (Json.truthy (secondary_bucket c)). Qed.

(** C8, as amended. The audit comment is the header, an empty line, and the
    labelled lines of the bucket, the member, the confidence, the secondary
    bucket when there is one, and the reasoning, in that order. When the
    bucket, the member's name, the confidence and the secondary bucket hold
    no line feed, reading the comment back gives these fields and the
    reasoning. *)
Theorem audit_comment_round_trip py bucket name c
    (Hbucket : Audit.single_line bucket = true)
    (Hname : Audit.single_line name = true)
    (Hconfidence : Audit.single_line (format_value py (confidence c)) = true)
    (Hsecondary :
       Audit.single_line (format_value py (secondary_bucket c)) = true) :
  Audit.parse (comment_body py bucket name c) =
    Some {| audit_topic := bucket;
            audit_owner := name;
            audit_confidence := format_value py (confidence c);
            audit_secondary :=
              if Json.truthy (secondary_bucket c)
              then Some (format_value py (secondary_bucket c))
              else None;
            audit_rationale := format_value py (reasoning c) |}.
Proof.
  rewrite comment_body_lines. unfold Audit.parse.
  destruct (Json.truthy (secondary_bucket c)); cbn [app join_lines].
  all: rewrite (field_line_app EmptyString Audit.header) by done; cbn [mbind option_bind].
  all: rewrite (field_line_app EmptyString EmptyString) by done; cbn [mbind option_bind].
  all: rewrite !String.eqb_refl; cbn [andb negb].
  all: rewrite (field_line_app Audit.bucket_label) by done; cbn [mbind option_bind].
  all: rewrite (field_line_app Audit.owner_label) by done; cbn [mbind option_bind].
  all: rewrite (field_line_app Audit.confidence_label) by done;
    cbn [mbind option_bind].
  - rewrite (field_line_app Audit.secondary_label) by done.
    by rewrite strip_prefix_app.
  - rewrite field_line_rationale. by rewrite strip_prefix_app.
Qed.

Lemma audit_comment_round_trip_witness :
  Audit.parse
    (comment_body (Samples.python []) "billing" "Ann"
       {| primary_bucket := "billing";
          secondary_bucket := JStr "Pricing";
          confidence := JStr "low";
          reasoning := JStr "an invoice" |}) =
  Some {| audit_topic := "billing";
          audit_owner := "Ann";
          audit_confidence := "low";
          audit_secondary := Some "Pricing";
          audit_rationale := "an invoice" |}.
Proof.
  apply (audit_comment_round_trip (Samples.python []) "billing" "Ann"
           {| primary_bucket := "billing";
              secondary_bucket := JStr "Pricing";
              confidence := JStr "low";
              reasoning := JStr "an invoice" |});
    reflexivity.
Defined.

(** C8, as stated, fails: two classifications of the same bucket, member
    and confidence with different reasonings have the same audit comment,
    so that nothing recovers the reasoning from the comment. *)
Lemma audit_comment_is_ambiguous :
  ¬ ∃ recover : string → json,
      ∀ c, recover (comment_body (Samples.python []) "billing" "Ann" c)
           = reasoning c.
Proof.
  intros [recover Hrecover].
  pose proof (Hrecover
    {| primary_bucket := "billing";
       secondary_bucket := JStr "Pricing";
       confidence := JStr "high";
       reasoning := JStr ("an invoice" ++ String "010" "- **Reasoning:** a price") |})
    as H1.
  pose proof (Hrecover
    {| primary_bucket := "billing";
       secondary_bucket :=
         JStr ("Pricing" ++ String "010" "- **Reasoning:** an invoice");
       confidence := JStr "high";
       reasoning := JStr "a price" |})
    as H2.
  vm_compute in H1, H2. rewrite H1 in H2. discriminate H2.
Qed.

(** ** One turn of the loop *)

Section Turn.

Variable py : runtime.
Variable sv : services.
Variable bucket_mapping : gmap string string.
Variable bucket_descriptions : string.
Variable member_lookup : gmap string member.
Variable team_id : string.
Variable bucket_names : list string.

Local Abbreviation assign' := (assign py sv team_id).
Local Abbreviation decide_issue' :=
  (decide_issue py sv bucket_mapping member_lookup team_id).
Local Abbreviation process_issue' :=
  (process_issue py sv bucket_mapping bucket_descriptions member_lookup
     team_id).
Local Abbreviation process_loop' :=
  (process_loop py sv bucket_mapping bucket_descriptions member_lookup
     team_id).

Lemma classify_issue_run i log :
  classify_issue py sv i bucket_descriptions bucket_names bucket_mapping log =
    (messages_create sv log i bucket_descriptions
       ≫= λ raw, interpret py raw bucket_names bucket_mapping,
     (log ++ [MessagesCreate i bucket_descriptions
                (messages_create sv log i bucket_descriptions)])%list).
Proof.
  unfold classify_issue, call_model, Run.bind, Run.call, Run.lift.
  by destruct (messages_create sv log i bucket_descriptions).
Qed.

(** In a dry run the end of a turn calls nothing. *)
Lemma assign_dry i bucket m c st log :
  assign' true i bucket m c st log =
    (Ok (append (fst st) (member_entry i bucket m c "would_assign" None),
         snd st), log).
Proof. by destruct st. Qed.

(** Outside a dry run the end of a turn adds one entry, calls only the
    tracker, and looks the label up only when none is memoized. *)
Lemma assign_real i bucket m c st log :
  ∃ r memo new,
    assign' false i bucket m c st log
      = (Ok (append (fst st) r, memo), (log ++ new)%list) ∧
    dry_real (member_entry i bucket m c "would_assign" None) r ∧
    List.filter Trace.is_model_call new = [] ∧
    Trace.memo_after (snd st) new = Some memo ∧
    Trace.lookups_used new = true.
Proof.
  destruct st as [results memo]. unfold assign, review_label.
  unfold Run.bind, Run.attempt, Run.ret, call_get_or_create_label,
    call_assign_issue, call_add_comment, Run.call. simpl.
  destruct (Json.eq_str (confidence c) "low"); [destruct memo as [id|]|].
  all: simpl.
  all: repeat match goal with
         | |- context [get_or_create_label sv ?l ?t ?n] =>
             destruct (get_or_create_label sv l t n) eqn:?; simpl
         | |- context [assign_issue sv ?l ?a ?b ?c] =>
             destruct (assign_issue sv l a b c) eqn:?; simpl
         | |- context [add_comment sv ?l ?a ?b] =>
             destruct (add_comment sv l a b) eqn:?; simpl
         end.
  all: rewrite <- ?app_assoc; simpl.
  all: eexists _, _, _; (split; [reflexivity|]).
  all: (split; [by constructor|]).
  all: simpl; rewrite ?bool_decide_eq_true_2 by done; done.
Qed.

Lemma dry_real_error_entries i bucket owner_name :
  dry_real (no_owner_entry i bucket) (no_owner_entry i bucket) ∧
  dry_real (no_member_entry i bucket owner_name)
           (no_member_entry i bucket owner_name).
Proof. split; constructor; by right. Qed.

Lemma decide_dry i c st log :
  decide_issue' true i c st log =
    (Ok (append (fst st) (preview bucket_mapping member_lookup i c), snd st),
     log).
Proof.
  unfold decide_issue, preview.
  destruct (resolve_owner_name _ _ _) as [[|ch owner]|]; try done.
  destruct (find_member _ _); [apply assign_dry|done].
Qed.

Lemma decide_real i c st log :
  ∃ r memo new,
    decide_issue' false i c st log
      = (Ok (append (fst st) r, memo), (log ++ new)%list) ∧
    dry_real (preview bucket_mapping member_lookup i c) r ∧
    List.filter Trace.is_model_call new = [] ∧
    Trace.memo_after (snd st) new = Some memo ∧
    Trace.lookups_used new = true.
Proof.
  unfold decide_issue, preview.
  destruct (resolve_owner_name _ _ _) as [[|ch owner]|].
  1,3: eexists _, (snd st), []; rewrite app_nil_r;
       repeat split; apply dry_real_error_entries; exact EmptyString.
  destruct (find_member _ _) as [m|]; [apply assign_real|].
  eexists _, (snd st), []. rewrite app_nil_r.
  repeat split. apply dry_real_error_entries.
Qed.

(** The turn of a dry run. *)
Lemma process_issue_dry st i log :
  process_issue' true bucket_names st i log =
    match assignee i with
    | Some current_assignee =>
        (Ok (append (fst st) (skipped_entry i current_assignee), snd st), log)
    | None =>
        let reply := messages_create sv log i bucket_descriptions in
        let log := (log ++ [MessagesCreate i bucket_descriptions reply])%list in
        match reply ≫= λ raw, interpret py raw bucket_names bucket_mapping with
        | Ok c =>
            (Ok (append (fst st) (preview bucket_mapping member_lookup i c),
                 snd st), log)
        | Raise e => (Raise e, log)
        end
    end.
Proof.
  unfold process_issue. destruct (assignee i); [done|].
  unfold Run.bind. rewrite classify_issue_run. simpl.
  destruct (_ ≫= _); [apply decide_dry|done].
Qed.

(** The turn of a run that executes. *)
Lemma process_issue_real st i log :
  match assignee i with
  | Some current_assignee =>
      process_issue' false bucket_names st i log =
        (Ok (append (fst st) (skipped_entry i current_assignee), snd st), log)
  | None =>
      let reply := messages_create sv log i bucket_descriptions in
      let log1 := (log ++ [MessagesCreate i bucket_descriptions reply])%list in
      match reply ≫= λ raw, interpret py raw bucket_names bucket_mapping with
      | Ok c =>
          ∃ r memo new,
            process_issue' false bucket_names st i log
              = (Ok (append (fst st) r, memo), (log1 ++ new)%list) ∧
            dry_real (preview bucket_mapping member_lookup i c) r ∧
            List.filter Trace.is_model_call new = [] ∧
            Trace.memo_after (snd st) new = Some memo ∧
            Trace.lookups_used new = true
      | Raise e => process_issue' false bucket_names st i log = (Raise e, log1)
      end
  end.
Proof.
  unfold process_issue. destruct (assignee i); [done|].
  unfold Run.bind. rewrite classify_issue_run. simpl.
  destruct (_ ≫= _); [apply decide_real|done].
Qed.

End Turn.

(** C6: an issue that has an assignee adds the skipped entry, which names
    the assignee, and makes no call: the log and the memoized label are as
    before the turn. *)
Theorem assigned_issue_is_skipped py sv bucket_mapping bucket_descriptions
    member_lookup team_id dry_run bucket_names st i log current_assignee
    (Hassigned : assignee i = Some current_assignee) :
  process_issue py sv bucket_mapping bucket_descriptions member_lookup team_id
    dry_run bucket_names st i log =
    (Ok (append (fst st)
           {| rep_identifier := identifier i;
              rep_title := title i;
              rep_bucket := None;
              rep_owner := None;
              rep_confidence := None;
              rep_action := "skipped";
              rep_reason :=
                Some ("Already assigned to " ++ user_name current_assignee) |},
         snd st),
     log).
Proof. unfold process_issue. by rewrite Hassigned. Qed.

Lemma assigned_issue_is_skipped_witness :
  process_issue (Samples.billing_python "low") Samples.tracker
    Samples.review_mapping "" (build_member_lookup Samples.team) "team" false
    [ "billing"; "pricing" ] ([], None)
    (Samples.ticket "3" "Login fails"
       (Some {| user_id := "u2"; user_name := "Bob" |})) [] =
    (Ok ([ {| rep_identifier := "PROF-3";
              rep_title := "Login fails";
              rep_bucket := None;
              rep_owner := None;
              rep_confidence := None;
              rep_action := "skipped";
              rep_reason := Some "Already assigned to Bob" |} ],
         None),
     []).
Proof.
  apply (assigned_issue_is_skipped (Samples.billing_python "low")
           Samples.tracker Samples.review_mapping ""
           (build_member_lookup Samples.team) "team" false
           [ "billing"; "pricing" ] ([], None)
           (Samples.ticket "3" "Login fails"
              (Some {| user_id := "u2"; user_name := "Bob" |}))
           [] {| user_id := "u2"; user_name := "Bob" |}).
  reflexivity.
Defined.

(** ** Feature overrides *)

Lemma dry_real_owner dry real :
  dry_real dry real →
  rep_identifier real = rep_identifier dry ∧
  rep_bucket real = rep_bucket dry ∧
  rep_owner real = rep_owner dry.
Proof. by destruct 1. Qed.

Lemma feature_override_registered feature owner title_lower :
  (feature, owner) ∈ FEATURE_OWNER_OVERRIDES →
  contains feature title_lower = true →
  feature_override FEATURE_OWNER_OVERRIDES title_lower = Some owner ∧
  owner_set (Some owner) = true.
Proof.
  unfold FEATURE_OWNER_OVERRIDES. rewrite list_elem_of_singleton.
  intros [= -> ->] Htitle. simpl. by rewrite Htitle.
Qed.

(** C5: when the title of an issue without assignee contains a registered
    keyword, in any casing, the owner name of the issue is the owner of the
    keyword, whatever the classification and the catalog are; the entry of
    the issue names the member found for that owner, or that owner when
    the team has no such member. *)
Theorem override_owner_wins py sv bucket_mapping bucket_descriptions
    member_lookup team_id dry_run bucket_names st i log feature owner c
    (Hunassigned : assignee i = None)
    (Hfeature : (feature, owner) ∈ FEATURE_OWNER_OVERRIDES)
    (Htitle : contains feature (lower (title i)) = true)
    (Hclassified :
       messages_create sv log i bucket_descriptions
         ≫= (λ raw, interpret py raw bucket_names bucket_mapping) = Ok c) :
  resolve_owner_name bucket_mapping (title i) (primary_bucket c) = Some owner ∧
  ∃ r memo log',
    process_issue py sv bucket_mapping bucket_descriptions member_lookup
      team_id dry_run bucket_names st i log
      = (Ok (append (fst st) r, memo), log') ∧
    rep_owner r =
      Some (match find_member member_lookup owner with
            | Some m => member_name m
            | None => owner
            end).
Proof.
  destruct (feature_override_registered _ _ _ Hfeature Htitle) as [Hover Hset].
  assert (resolve_owner_name bucket_mapping (title i) (primary_bucket c)
          = Some owner) as Hresolve.
  { unfold resolve_owner_name. by rewrite Hover, Hset. }
  split; [done|].
  assert (rep_owner (preview bucket_mapping member_lookup i c) =
          Some (match find_member member_lookup owner with
                | Some m => member_name m
                | None => owner
                end)) as Hpreview.
  { unfold preview. rewrite Hresolve.
    destruct owner as [|ch owner]; [done|].
    by destruct (find_member member_lookup (String ch owner)). }
  destruct dry_run.
  - rewrite process_issue_dry, Hunassigned. simpl. rewrite Hclassified.
    by eexists _, _, _.
  - pose proof (process_issue_real py sv bucket_mapping bucket_descriptions
                  member_lookup team_id bucket_names st i log) as Hreal.
    rewrite Hunassigned in Hreal. simpl in Hreal. rewrite Hclassified in Hreal.
    destruct Hreal as (r & memo & new & -> & Hdry & _).
    eexists _, _, _. split; [done|].
    apply dry_real_owner in Hdry as (_ & _ & ->). done.
Qed.

Lemma override_owner_wins_witness :
  resolve_owner_name {[ "storage" := "Owner A" ]}
    (title Samples.feature_ticket) "storage" = Some "Zuzana Bednarova" ∧
  ∃ r memo log',
    process_issue Samples.storage_python Samples.storage_tracker
      {[ "storage" := "Owner A" ]} ""
      (build_member_lookup [ Samples.ann; Samples.zuzana ]) "team" true
      [ "storage" ] ([], None) Samples.feature_ticket []
      = (Ok (append [] r, memo), log') ∧
    rep_owner r =
      Some (match find_member
                    (build_member_lookup [ Samples.ann; Samples.zuzana ])
                    "Zuzana Bednarova" with
            | Some m => member_name m
            | None => "Zuzana Bednarova"
            end).
Proof.
  apply (override_owner_wins Samples.storage_python Samples.storage_tracker
           {[ "storage" := "Owner A" ]} ""
           (build_member_lookup [ Samples.ann; Samples.zuzana ]) "team" true
           [ "storage" ] ([], None) Samples.feature_ticket []
           "native datatypes" "Zuzana Bednarova"
           {| primary_bucket := "storage";
              secondary_bucket := JNull;
              confidence := JStr "high";
              reasoning := JStr "about files" |}).
  - reflexivity.
  - apply list_elem_of_here.
  - reflexivity.
  - reflexivity.
Defined.

(** The override of the feature reaches the member under the name that the
    tracker displays. *)
Example feature_ticket_goes_to_zuzana :
  fst (process_issue Samples.storage_python Samples.storage_tracker
         {[ "storage" := "Owner A" ]} ""
         (build_member_lookup [ Samples.ann; Samples.zuzana ]) "team" true
         [ "storage" ] ([], None) Samples.feature_ticket []) =
  Ok ([ {| rep_identifier := "PROF-7";
           rep_title := "Add Native Datatypes support";
           rep_bucket := Some "storage";
           rep_owner := Some "Zuzana BednÃ¡Å™ovÃ¡";
           rep_confidence := Some (JStr "high");
           rep_action := "would_assign";
           rep_reason := None |} ], None).
Proof. vm_compute. reflexivity. Qed.

(** ** The log of a run *)

Lemma memo_after_app log1 : ∀ memo log2,
  Trace.memo_after memo (log1 ++ log2) =
    Trace.memo_after memo log1 ≫= λ memo', Trace.memo_after memo' log2.
Proof.
  induction log1 as [|e log1 IH]; intros memo log2; [done|].
  destruct e as [| |? ? [ids|] ?|]; simpl; try apply IH.
  - by destruct memo.
  - destruct memo as [id|]; [|done]. by case_bool_decide.
Qed.

(** With an identifier memoized, a log that keeps to the memo has no lookup
    and labels issues with that identifier alone. *)
Lemma memo_after_memoized id log : ∀ memo,
  Trace.memo_after (Some id) log = Some memo →
  memo = Some id ∧
  (∀ t n reply, GetOrCreateLabel t n reply ∉ log) ∧
  (∀ i a label_ids reply,
     AssignIssue i a (Some label_ids) reply ∈ log → label_ids = [id]).
Proof.
  induction log as [|e log IH]; intros memo; simpl.
  - intros [= <-]. split; [done|]. split; intros *; set_solver.
  - destruct e as [| |? ? [ids|] ?|]; try done.
    2: case_bool_decide as Hids; [|done].
    all: intros (-> & Hlookup & Hassign)%IH; split; [done|].
    all: split; intros *; rewrite ?not_elem_of_cons, ?elem_of_cons.
    all: try (split; [done|apply Hlookup]).
    all: try (intros [[=]|Hin]; by eapply Hassign).
    intros [[= -> -> -> ->]|Hin]; [done|by eapply Hassign].
Qed.

(** A log that ends with nothing memoized has no lookup that succeeded and
    no labelled assignment. *)
Lemma memo_after_nothing log : ∀ memo,
  Trace.memo_after memo log = Some None →
  memo = None ∧
  (∀ t n id, GetOrCreateLabel t n (Ok id) ∉ log) ∧
  (∀ i a label_ids reply, AssignIssue i a (Some label_ids) reply ∉ log).
Proof.
  induction log as [|e log IH]; intros memo; simpl.
  - intros [= ->]. split; [done|]. split; intros *; set_solver.
  - destruct e as [|t n [id|err]|? ? [ids|] ?|].
    2: { destruct memo; [done|]. by intros (? & _)%memo_after_memoized. }
    3: { destruct memo as [id|]; [|done]. case_bool_decide; [|done].
         by intros (? & _)%memo_after_memoized. }
    2: destruct memo; [done|].
    all: intros (? & Hlookup & Hassign)%IH; split; [done|].
    all: split; intros *; rewrite not_elem_of_cons; (split; [done|]).
    all: first [apply Hlookup | apply Hassign].
Qed.

Lemma lookups_used_app log1 : ∀ log2,
  Trace.lookups_used log1 = true →
  Trace.lookups_used log2 = true →
  Trace.lookups_used (log1 ++ log2) = true.
Proof.
  induction log1 as [|e log1 IH]; intros log2 H1 H2; [done|].
  destruct e as [|t n [id|err]| |]; simpl in *; try by apply IH.
  destruct log1 as [|[| |? ? [ids|] ?|] log1]; try done.
  apply andb_true_iff in H1 as [Hids Hrest].
  apply andb_true_iff. split; [done|]. by apply (IH log2).
Qed.

(** In a log whose lookups are used, the call after a lookup that succeeds
    assigns an issue with the identifier found. *)
Lemma lookups_used_next before : ∀ t n id after,
  Trace.lookups_used (before ++ GetOrCreateLabel t n (Ok id) :: after) = true →
  ∃ i a reply rest, after = AssignIssue i a (Some [id]) reply :: rest.
Proof.
  induction before as [|e before IH]; intros t n id after; simpl.
  - destruct after as [|[| |i a [ids|] reply|] rest]; try done.
    intros [Hids _]%andb_true_iff. apply bool_decide_eq_true in Hids as ->.
    by eexists _, _, _, _.
  - destruct e as [|t' n' [id'|err]| |]; try apply IH.
    destruct before as [|[| |? ? [ids|] ?|] before]; try done.
    intros [_ Hrest]%andb_true_iff. by apply (IH t n id after).
Qed.

Section Loops.

Variable py : runtime.
Variable sv : services.
Variable bucket_mapping : gmap string string.
Variable bucket_descriptions : string.
Variable member_lookup : gmap string member.
Variable team_id : string.
Variable bucket_names : list string.

Local Abbreviation process_issue' :=
  (process_issue py sv bucket_mapping bucket_descriptions member_lookup
     team_id).
Local Abbreviation process_loop' :=
  (process_loop py sv bucket_mapping bucket_descriptions member_lookup
     team_id).

(** A turn extends the log by calls that keep to the memo. *)
Lemma process_issue_trace dry_run st i log :
  ∃ new memo,
    snd (process_issue' dry_run bucket_names st i log) = (log ++ new)%list ∧
    Trace.memo_after (snd st) new = Some memo ∧
    Trace.lookups_used new = true ∧
    ∀ st', fst (process_issue' dry_run bucket_names st i log) = Ok st' →
           snd st' = memo.
Proof.
  destruct dry_run.
  - rewrite process_issue_dry. destruct (assignee i); simpl.
    + exists [], (snd st). rewrite app_nil_r. repeat split. by intros ? [= <-].
    + destruct (_ ≫= _); eexists [_], (snd st); repeat split.
      * by intros ? [= <-].
      * done.
  - pose proof (process_issue_real py sv bucket_mapping bucket_descriptions
                  member_lookup team_id bucket_names st i log) as Hreal.
    destruct (assignee i); simpl in Hreal.
    + rewrite Hreal. exists [], (snd st). rewrite app_nil_r.
      repeat split. by intros ? [= <-].
    + destruct (_ ≫= _).
      * destruct Hreal as (r & memo & new & -> & _ & _ & Hmemo & Hused).
        eexists (_ :: new), memo. simpl. rewrite <- app_assoc.
        repeat split; [done..|]. by intros ? [= <-].
      * rewrite Hreal. eexists [_], (snd st). by repeat split.
Qed.

Lemma process_loop_trace dry_run issues : ∀ st log,
  ∃ new memo,
    snd (process_loop' dry_run bucket_names st issues log) = (log ++ new)%list ∧
    Trace.memo_after (snd st) new = Some memo ∧
    Trace.lookups_used new = true.
Proof.
  induction issues as [|i issues IH]; intros st log; simpl.
  - exists [], (snd st). by rewrite app_nil_r.
  - unfold Run.bind.
    destruct (process_issue_trace dry_run st i log)
      as (new1 & memo1 & Hlog & Hmemo & Hused & Hst).
    destruct (process_issue' dry_run bucket_names st i log) as [[st'|e] log'];
      simpl in *; subst log'.
    + destruct (IH st' (log ++ new1)%list)
        as (new2 & memo2 & -> & Hmemo2 & Hused2).
      exists (new1 ++ new2)%list, memo2. rewrite app_assoc. split; [done|].
      split; [|by apply lookups_used_app].
      rewrite memo_after_app, Hmemo. simpl. by rewrite <- (Hst st' eq_refl).
    + by exists new1, memo1.
Qed.

(** A dry run calls only the model. *)
Lemma process_loop_dry_log issues : ∀ st log,
  Forall (λ e, Trace.is_model_call e = true) log →
  Forall (λ e, Trace.is_model_call e = true)
    (snd (process_loop' true bucket_names st issues log)).
Proof.
  induction issues as [|i issues IH]; intros st log Hlog; simpl; [done|].
  unfold Run.bind. rewrite process_issue_dry.
  destruct (assignee i); simpl; [by apply IH|].
  destruct (_ ≫= _); simpl.
  - apply IH. apply Forall_app. by repeat constructor.
  - apply Forall_app. by repeat constructor.
Qed.

Hypothesis model_ignores_tracker : ∀ log i descriptions,
  messages_create sv log i descriptions =
    messages_create sv (List.filter Trace.is_model_call log) i descriptions.

(** A turn of a dry run and the same turn of a run that executes, after
    the same calls to the model. *)
Lemma process_issue_dry_real dry real i dry_log real_log :
  List.filter Trace.is_model_call dry_log
    = List.filter Trace.is_model_call real_log →
  Forall2 dry_real (fst dry) (fst real) →
  match process_issue' true bucket_names dry i dry_log,
        process_issue' false bucket_names real i real_log with
  | (Ok dry', dry_log'), (Ok real', real_log') =>
      Forall2 dry_real (fst dry') (fst real') ∧
      List.filter Trace.is_model_call dry_log'
        = List.filter Trace.is_model_call real_log'
  | (Raise e, _), (Raise e', _) => e = e'
  | _, _ => False
  end.
Proof.
  intros Hlogs Hresults. rewrite process_issue_dry.
  pose proof (process_issue_real py sv bucket_mapping bucket_descriptions
                member_lookup team_id bucket_names real i real_log) as Hreal.
  destruct (assignee i) as [current_assignee|]; simpl in *.
  - rewrite Hreal. split; [|done].
    apply Forall2_app; [done|]. constructor; [|constructor].
    apply dry_real_same. by left.
  - rewrite (model_ignores_tracker dry_log), Hlogs,
      <- (model_ignores_tracker real_log).
    destruct (_ ≫= _) as [c|e].
    + destruct Hreal as (r & memo & new & -> & Hdry & Hnew & _). simpl.
      split; [apply Forall2_app; [done|by repeat constructor]|].
      rewrite !List.filter_app, Hnew, Hlogs. simpl. by rewrite app_nil_r.
    + by rewrite Hreal.
Qed.

Lemma process_loop_dry_real issues : ∀ dry real dry_log real_log,
  List.filter Trace.is_model_call dry_log
    = List.filter Trace.is_model_call real_log →
  Forall2 dry_real (fst dry) (fst real) →
  match fst (process_loop' true bucket_names dry issues dry_log),
        fst (process_loop' false bucket_names real issues real_log) with
  | Ok dry', Ok real' => Forall2 dry_real (fst dry') (fst real')
  | Raise e, Raise e' => e = e'
  | _, _ => False
  end.
Proof.
  induction issues as [|i issues IH]; intros dry real dry_log real_log Hlogs Hres;
    simpl; [done|].
  unfold Run.bind.
  pose proof (process_issue_dry_real dry real i dry_log real_log Hlogs Hres)
    as Hturn.
  destruct (process_issue' true bucket_names dry i dry_log) as [[dry'|e] dl],
           (process_issue' false bucket_names real i real_log) as [[real'|e'] rl];
    try done.
  destruct Hturn as [Hres' Hlogs']. by apply IH.
Qed.

End Loops.

Lemma process_issues_log py sv issues bucket_mapping bucket_descriptions
    team_members team_id dry_run log :
  snd (process_issues py sv issues bucket_mapping bucket_descriptions
         team_members team_id dry_run log) =
  snd (process_loop py sv bucket_mapping bucket_descriptions
         (build_member_lookup team_members) team_id dry_run
         (key_order py bucket_mapping) ([], None) issues log).
Proof.
  unfold process_issues, Run.bind. by destruct (process_loop _ _ _ _ _ _ _ _ _ _ _) as [[]].
Qed.

Lemma process_issues_results py sv issues bucket_mapping bucket_descriptions
    team_members team_id dry_run log :
  fst (process_issues py sv issues bucket_mapping bucket_descriptions
         team_members team_id dry_run log) =
  fst <$> fst (process_loop py sv bucket_mapping bucket_descriptions
                 (build_member_lookup team_members) team_id dry_run
                 (key_order py bucket_mapping) ([], None) issues log).
Proof.
  unfold process_issues, Run.bind. by destruct (process_loop _ _ _ _ _ _ _ _ _ _ _) as [[]].
Qed.

(** ** Labels and confidence *)

Lemma labels_follow_app low log1 : ∀ current log2,
  Trace.labels_follow low current log1 = true →
  (∀ current', Trace.labels_follow low current' log2 = true) →
  Trace.labels_follow low current (log1 ++ log2) = true.
Proof.
  induction log1 as [|e log1 IH]; intros current log2 H1 H2; [apply H2|].
  destruct e as [| |? ? label_ids ?|]; simpl in *; try by apply IH.
  apply andb_true_iff in H1 as [Hlabels Hrest].
  apply andb_true_iff. split; [done|]. by apply IH.
Qed.

(** In a log whose labels follow the confidence, an assignment carries
    labels exactly when the reply to the call of the model of its turn is a
    low-confidence one. *)
Lemma labels_follow_turn low calls : ∀ current a b label_ids r rest,
  Forall (λ e, Trace.is_model_call e = false) calls →
  Trace.labels_follow low current (calls ++ AssignIssue a b label_ids r :: rest)
    = true →
  match label_ids with Some _ => true | None => false end = current.
Proof.
  induction calls as [|e calls IH]; intros current a b label_ids r rest Hcalls;
    simpl.
  - intros [Hlabels _]%andb_true_iff. by apply eqb_prop.
  - apply Forall_cons in Hcalls as [He Hcalls].
    destruct e as [| |? ? ids ?|]; simpl; try done; try by apply IH.
    intros [_ Hrest]%andb_true_iff. by apply (IH current a b label_ids r rest).
Qed.

Lemma labels_follow_at low before : ∀ current i d reply calls a b label_ids r rest,
  Forall (λ e, Trace.is_model_call e = false) calls →
  Trace.labels_follow low current
    (before ++ MessagesCreate i d reply :: calls
       ++ AssignIssue a b label_ids r :: rest) = true →
  match label_ids with Some _ => true | None => false end = low reply.
Proof.
  induction before as [|e before IH];
    intros current i d reply calls a b label_ids r rest Hcalls; simpl.
  - by apply labels_follow_turn.
  - destruct e as [| |? ? ids ?|]; simpl; try by apply IH.
    intros [_ Hrest]%andb_true_iff.
    by apply (IH current i d reply calls a b label_ids r rest).
Qed.

Section Labels.

Variable py : runtime.
Variable sv : services.
Variable bucket_mapping : gmap string string.
Variable bucket_descriptions : string.
Variable member_lookup : gmap string member.
Variable team_id : string.
Variable bucket_names : list string.

Local Abbreviation low' :=
  (Trace.low_confidence py bucket_names bucket_mapping).

(** The end of a turn assigns the issue with labels exactly when the
    confidence is low. *)
Lemma assign_labels low dry_run i bucket m c st log :
  ∃ new,
    snd (assign py sv team_id dry_run i bucket m c st log) = (log ++ new)%list ∧
    Trace.labels_follow low (Json.eq_str (confidence c) "low") new = true.
Proof.
  destruct dry_run.
  { rewrite assign_dry. exists []. by rewrite app_nil_r. }
  destruct st as [results memo]. unfold assign, review_label.
  unfold Run.bind, Run.attempt, Run.ret, call_get_or_create_label,
    call_assign_issue, call_add_comment, Run.call. simpl.
  destruct (Json.eq_str (confidence c) "low"); [destruct memo as [id|]|].
  all: simpl.
  all: repeat match goal with
         | |- context [get_or_create_label sv ?l ?t ?n] =>
             destruct (get_or_create_label sv l t n) eqn:?; simpl
         | |- context [assign_issue sv ?l ?a ?b ?c] =>
             destruct (assign_issue sv l a b c) eqn:?; simpl
         | |- context [add_comment sv ?l ?a ?b] =>
             destruct (add_comment sv l a b) eqn:?; simpl
         end.
  all: rewrite <- ?app_assoc; simpl.
  all: by eexists.
Qed.

Lemma decide_labels low dry_run i c st log :
  ∃ new,
    snd (decide_issue py sv bucket_mapping member_lookup team_id dry_run
           i c st log) = (log ++ new)%list ∧
    Trace.labels_follow low (Json.eq_str (confidence c) "low") new = true.
Proof.
  unfold decide_issue.
  destruct (resolve_owner_name _ _ _) as [[|ch owner]|].
  1,3: exists []; by rewrite app_nil_r.
  destruct (find_member _ _) as [m|]; [apply assign_labels|].
  exists []. by rewrite app_nil_r.
Qed.

(** The calls of a turn, read after any calls, have labels that follow the
    confidence of the turn. *)
Lemma process_issue_labels dry_run st i log :
  ∃ new,
    snd (process_issue py sv bucket_mapping bucket_descriptions member_lookup
           team_id dry_run bucket_names st i log) = (log ++ new)%list ∧
    ∀ current, Trace.labels_follow low' current new = true.
Proof.
  unfold process_issue. destruct (assignee i).
  { exists []. by rewrite app_nil_r. }
  unfold Run.bind. rewrite classify_issue_run.
  destruct (_ ≫= _) as [c|e] eqn:Hc.
  - destruct (decide_labels low' dry_run i c st
                (log ++ [MessagesCreate i bucket_descriptions
                           (messages_create sv log i bucket_descriptions)])%list)
      as (new & Hnew & Hlabels).
    exists (MessagesCreate i bucket_descriptions
              (messages_create sv log i bucket_descriptions) :: new).
    rewrite Hnew, <- app_assoc. split; [done|]. intros current. simpl.
    assert (low' (messages_create sv log i bucket_descriptions)
            = Json.eq_str (confidence c) "low") as ->; [|done].
    unfold Trace.low_confidence. by rewrite Hc.
  - by eexists [_].
Qed.

Lemma process_loop_labels dry_run issues : ∀ st log,
  ∃ new,
    snd (process_loop py sv bucket_mapping bucket_descriptions member_lookup
           team_id dry_run bucket_names st issues log) = (log ++ new)%list ∧
    ∀ current, Trace.labels_follow low' current new = true.
Proof.
  induction issues as [|i issues IH]; intros st log; simpl.
  - exists []. by rewrite app_nil_r.
  - unfold Run.bind.
    destruct (process_issue_labels dry_run st i log) as (new1 & Hlog & Hnew1).
    destruct (process_issue _ _ _ _ _ _ _ _ st i log) as [[st'|e] log'];
      simpl in *; subst log'.
    + destruct (IH st' (log ++ new1)%list) as (new2 & -> & Hnew2).
      exists (new1 ++ new2)%list. rewrite app_assoc. split; [done|].
      intros current. by apply labels_follow_app.
    + by exists new1.
Qed.

End Labels.



(** In that run the second ticket is classified with a low confidence
    after the lookup, and is assigned with the label found for the
    first. *)
Example sample_run_reuses_the_label :
  ∃ earlier i descriptions raw a b reply later c,
    skipn 2 (snd (process_issues (Samples.billing_python "low") Samples.tracker
                    Samples.tickets Samples.review_mapping "" Samples.team
                    "team" false []))
      = (earlier ++ MessagesCreate i descriptions (Ok raw) :: []
           ++ AssignIssue a b (Some [ "label-1" ]) reply :: later)%list ∧
    identifier i = "PROF-2" ∧
    interpret (Samples.billing_python "low") raw
      (key_order (Samples.billing_python "low") Samples.review_mapping)
      Samples.review_mapping = Ok c ∧
    Json.eq_str (confidence c) "low" = true.
Proof.
  eexists [_; _], _, _, _, _, _, _, _, _. vm_compute. by repeat split.
Qed.

(** The calls of that run, without the texts sent. *)
Example sample_run_calls :
  (λ e, match e with
        | MessagesCreate i _ _ => ("model", identifier i, None)
        | GetOrCreateLabel _ name _ => ("label", name, None)
        | AssignIssue i a label_ids _ => ("assign", i, label_ids)
        | AddComment i _ _ => ("comment", i, None)
        end) <$>
  snd (process_issues (Samples.billing_python "low") Samples.tracker
         Samples.tickets Samples.review_mapping "" Samples.team "team" false [])
  = [ ("model", "PROF-1", None);
      ("label", "needs-review", None);
      ("assign", "id-1", Some [ "label-1" ]);
      ("comment", "id-1", None);
      ("model", "PROF-2", None);
      ("assign", "id-2", Some [ "label-1" ]);
      ("comment", "id-2", None) ].
Proof. vm_compute. reflexivity. Qed.

(** A lookup that fails leaves nothing memoized: the next issue that needs
    the label looks it up again. *)
Example failed_lookup_is_retried :
  (λ e, match e with
        | MessagesCreate i _ _ => ("model", identifier i, None)
        | GetOrCreateLabel _ name (Ok _) => ("label found", name, None)
        | GetOrCreateLabel _ name (Raise _) => ("label failed", name, None)
        | AssignIssue i a label_ids _ => ("assign", i, label_ids)
        | AddComment i _ _ => ("comment", i, None)
        end) <$>
  snd (process_issues (Samples.billing_python "low") Samples.flaky_tracker
         Samples.tickets Samples.review_mapping "" Samples.team "team" false [])
  = [ ("model", "PROF-1", None);
      ("label failed", "needs-review", None);
      ("model", "PROF-2", None);
      ("label found", "needs-review", None);
      ("assign", "id-2", Some [ "label-1" ]);
      ("comment", "id-2", None) ].
Proof. vm_compute. reflexivity. Qed.

(** C10: a run is a dry run unless it is asked to execute. A dry run calls
    the model and nothing else, so neither assigns an
    issue, nor adds a comment, nor looks a label up. When the answers of
    the model do not depend on the calls to the tracker, the dry run and
    the run that executes stop on the same exception or give entries that
    correspond one by one: where the run that executes has an assigned
    entry, the dry run has the would_assign entry with the same bucket,
    owner and confidence. *)
Theorem dry_run_calls_only_the_model py sv issues bucket_mapping
    bucket_descriptions team_members team_id
    (Hmodel : ∀ log i descriptions,
       messages_create sv log i descriptions =
         messages_create sv (List.filter Trace.is_model_call log) i
           descriptions) :
  let dry :=
    process_issues py sv issues bucket_mapping bucket_descriptions
      team_members team_id true [] in
  let real :=
    process_issues py sv issues bucket_mapping bucket_descriptions
      team_members team_id false [] in
  dry_run_mode false = true ∧
  Forall (λ e, ∃ i descriptions reply, e = MessagesCreate i descriptions reply)
    (snd dry) ∧
  match fst dry, fst real with
  | Ok dry_results, Ok real_results =>
      Forall2
        (λ d r,
           dry_real d r ∧
           (rep_action r = "assigned" →
            rep_action d = "would_assign" ∧
            rep_identifier d = rep_identifier r ∧
            rep_bucket d = rep_bucket r ∧
            rep_owner d = rep_owner r ∧
            rep_confidence d = rep_confidence r))
        dry_results real_results
  | Raise e, Raise e' => e = e'
  | _, _ => False
  end.
Proof.
  intros dry real. subst dry real. split; [done|]. split.
  - rewrite process_issues_log.
    eapply Forall_impl; [by apply process_loop_dry_log|].
    intros [| | |] He; try done. by eexists _, _, _.
  - rewrite !process_issues_results.
    pose proof (process_loop_dry_real py sv bucket_mapping bucket_descriptions
                  (build_member_lookup team_members) team_id
                  (key_order py bucket_mapping) Hmodel issues
                  ([], None) ([], None) [] [] eq_refl
                  (List.Forall2_nil dry_real)) as Hloop.
    destruct (fst (process_loop _ _ _ _ _ _ true _ _ _ _)) as [[dry memo]|e],
             (fst (process_loop _ _ _ _ _ _ false _ _ _ _)) as [[real memo']|e'];
      simpl in *; try done.
    eapply Forall2_impl; [exact Hloop|].
    intros d r Hdr. split; [done|].
    destruct Hdr as [r [Hr|Hr]| |]; simpl; try done.
    all: intros Hassigned; rewrite Hassigned in Hr; discriminate Hr.
Qed.

Lemma dry_run_calls_only_the_model_witness :
  let dry :=
    process_issues (Samples.billing_python "low") Samples.tracker
      Samples.tickets Samples.review_mapping "" Samples.team "team" true [] in
  let real :=
    process_issues (Samples.billing_python "low") Samples.tracker
      Samples.tickets Samples.review_mapping "" Samples.team "team" false [] in
  dry_run_mode false = true ∧
  Forall (λ e, ∃ i descriptions reply, e = MessagesCreate i descriptions reply)
    (snd dry) ∧
  match fst dry, fst real with
  | Ok dry_results, Ok real_results =>
      Forall2
        (λ d r,
           dry_real d r ∧
           (rep_action r = "assigned" →
            rep_action d = "would_assign" ∧
            rep_identifier d = rep_identifier r ∧
            rep_bucket d = rep_bucket r ∧
            rep_owner d = rep_owner r ∧
            rep_confidence d = rep_confidence r))
        dry_results real_results
  | Raise e, Raise e' => e = e'
  | _, _ => False
  end.
Proof.
  apply (dry_run_calls_only_the_model (Samples.billing_python "low")
           Samples.tracker Samples.tickets Samples.review_mapping ""
           Samples.team "team").
  reflexivity.
Defined.

(** The entries of the dry run on the sample tickets. *)
Example sample_dry_run :
  (λ results : list report,
     (λ r, (rep_identifier r, rep_action r, rep_bucket r, rep_owner r,
            rep_confidence r)) <$> results) <$>
  fst (process_issues (Samples.billing_python "low") Samples.tracker
         Samples.tickets Samples.review_mapping "" Samples.team "team" true [])
  = Ok [ ("PROF-1", "would_assign", Some "billing", Some "Ann",
          Some (JStr "low"));
         ("PROF-2", "would_assign", Some "billing", Some "Ann",
          Some (JStr "low"));
         ("PROF-3", "skipped", None, None, None) ].
Proof. vm_compute. reflexivity. Qed.

(** * Further properties *)

(** ** The catalog *)

Lemma load_row_short mapping r :
  short r = true → load_row mapping r = Raise AttributeError.
Proof.
  unfold short, load_row.
  destruct (Name r) as [| |name], (Owner r) as [| |owner]; simpl; done.
Qed.

Lemma load_row_complete mapping r :
  short r = false →
  load_row mapping r =
    Ok (if usable r
        then match Name r, Owner r with
             | Text name, Text owner =>
                 <[lower (strip name) := strip owner]> mapping
             | _, _ => mapping
             end
        else mapping).
Proof.
  unfold short, usable, load_row.
  destruct (Name r) as [| |name], (Owner r) as [| |owner]; simpl; try done.
  - by destruct (nonempty (strip name)).
  - by destruct (nonempty (strip name) && nonempty (strip owner)).
Qed.

Lemma load_rows_app rows1 : ∀ mapping rows2,
  load_rows mapping (rows1 ++ rows2) =
    load_rows mapping rows1 ≫= λ mapping', load_rows mapping' rows2.
Proof.
  induction rows1 as [|r rows1 IH]; intros mapping rows2; simpl; [done|].
  destruct (load_row mapping r); simpl; [apply IH|done].
Qed.

Lemma load_rows_outcome rows : ∀ mapping,
  if existsb short rows
  then load_rows mapping rows = Raise AttributeError
  else ∃ mapping', load_rows mapping rows = Ok mapping'.
Proof.
  induction rows as [|r rows IH]; intros mapping; simpl; [by eexists|].
  destruct (short r) eqn:Hr; simpl.
  - by rewrite load_row_short.
  - rewrite load_row_complete by done. simpl. apply IH.
Qed.

(** X1. The loader fails with the error of [open] on a source that cannot
    be opened, with an [AttributeError] when a row that is read is too short
    to hold the name or the owner, and with the exception of the reader when
    the reading stops on one after rows that are all long enough. It
    returns a mapping exactly when the source is read to its end and no row
    is too short. *)
Theorem load_bucket_mapping_outcome src :
  match src with
  | Unreadable => load_bucket_mapping src = Raise OSError
  | Rows rows =>
      if existsb short rows
      then load_bucket_mapping src = Raise AttributeError
      else ∃ mapping, load_bucket_mapping src = Ok mapping
  | Interrupted rows e =>
      load_bucket_mapping src =
        Raise (if existsb short rows then AttributeError else e)
  end.
Proof.
  destruct src as [|rows|rows e]; [done|apply load_rows_outcome|].
  simpl. pose proof (load_rows_outcome rows ∅) as Hrows.
  destruct (existsb short rows).
  - by rewrite Hrows.
  - by destruct Hrows as [mapping ->].
Qed.

(** A file whose second line is not UTF-8: the row before it is read, and
    the error of the decoder ends the loading. *)
Example undecodable_line_ends_the_loading :
  load_bucket_mapping
    (Interrupted [ {| Name := Text "Billing"; Owner := Text "Ann";
                      Note := Absent |} ]
       (UnicodeDecodeError "invalid start byte"))
  = Raise (UnicodeDecodeError "invalid start byte").
Proof. reflexivity. Qed.

Lemma load_rows_entry rows : ∀ mapping mapping' key owner,
  load_rows mapping rows = Ok mapping' →
  mapping' !! key = Some owner →
  mapping !! key = Some owner ∨
  ∃ r name o, r ∈ rows ∧ usable r = true ∧
              Name r = Text name ∧ Owner r = Text o ∧
              key = lower (strip name) ∧ owner = strip o.
Proof.
  induction rows as [|r rows IH]; intros mapping mapping' key owner; simpl.
  - intros [= <-] Hkey. by left.
  - destruct (load_row mapping r) as [m1|] eqn:Hr; simpl; [|done].
    intros Hrows Hkey.
    destruct (IH _ _ _ _ Hrows Hkey) as [Hm1|(r' & name & o & Hin & H)].
    + destruct (short r) eqn:Hshort; [by rewrite load_row_short in Hr|].
      rewrite load_row_complete in Hr by done. injection Hr as <-.
      destruct (usable r) eqn:Husable; [|by left].
      unfold usable in Husable.
      destruct (Name r) as [| |name] eqn:Hname; try done.
      destruct (Owner r) as [| |o] eqn:Howner; try done.
      apply lookup_insert_Some in Hm1 as [[<- <-]|[_ Hm]]; [|by left].
      right. exists r, name, o. split; [apply list_elem_of_here|].
      unfold usable. by rewrite Hname, Howner.
    + right. exists r', name, o. split; [by apply list_elem_of_further|done].
Qed.

Lemma loaded_entry_origin rows mapping key owner :
  load_bucket_mapping (Rows rows) = Ok mapping →
  mapping !! key = Some owner →
  lower key = key ∧ key ≠ EmptyString ∧ owner ≠ EmptyString ∧
  ∃ r name o, r ∈ rows ∧ usable r = true ∧
              Name r = Text name ∧ Owner r = Text o ∧
              key = lower (strip name) ∧ owner = strip o.
Proof.
  intros Hload Hentry.
  destruct (load_bucket_mapping_routable _ _ Hload _ _ Hentry)
    as (Hlower & Hkey & Howner).
  apply nonempty_true in Hkey, Howner. repeat split; try done.
  destruct (load_rows_entry _ _ _ _ _ Hload Hentry) as [Hempty|H]; [|done].
  by rewrite lookup_empty in Hempty.
Qed.

(** X2. Every entry of a loaded mapping comes from a row of the source with
    a non-empty name and a non-empty owner: its key is the trimmed name in
    lower case and its owner the trimmed owner; a row without owner gives no
    entry. *)
Theorem loaded_entry_has_a_usable_row rows mapping key owner
    (Hload : load_bucket_mapping (Rows rows) = Ok mapping)
    (Hentry : mapping !! key = Some owner) :
  lower key = key ∧ key ≠ EmptyString ∧ owner ≠ EmptyString ∧
  ∃ r name o, r ∈ rows ∧ usable r = true ∧
              Name r = Text name ∧ Owner r = Text o ∧
              key = lower (strip name) ∧ owner = strip o.
Proof. exact (loaded_entry_origin _ _ _ _ Hload Hentry). Qed.

Lemma loaded_entry_has_a_usable_row_witness :
  lower "storage" = "storage" ∧ "storage" ≠ EmptyString ∧
  "Owner A" ≠ EmptyString ∧
  ∃ r name o, r ∈ Samples.storage_rows ∧ usable r = true ∧
              Name r = Text name ∧ Owner r = Text o ∧
              "storage" = lower (strip name) ∧ "Owner A" = strip o.
Proof.
  apply (loaded_entry_has_a_usable_row Samples.storage_rows
           {[ "storage" := "Owner A" ]} "storage" "Owner A");
    reflexivity.
Defined.

Lemma load_rows_keeps rows : ∀ mapping mapping' key owner,
  load_rows mapping rows = Ok mapping' →
  mapping !! key = Some owner →
  (∀ r name, r ∈ rows → usable r = true → Name r = Text name →
             lower (strip name) ≠ key) →
  mapping' !! key = Some owner.
Proof.
  induction rows as [|r rows IH]; intros mapping mapping' key owner; simpl.
  - by intros [= <-].
  - destruct (load_row mapping r) as [m1|] eqn:Hr; simpl; [|done].
    intros Hrows Hkey Hother.
    apply (IH m1); [done| |].
    + destruct (short r) eqn:Hshort; [by rewrite load_row_short in Hr|].
      rewrite load_row_complete in Hr by done. injection Hr as <-.
      destruct (usable r) eqn:Husable; [|done].
      destruct (Name r) as [| |name] eqn:Hname; try done.
      destruct (Owner r) as [| |o] eqn:Howner; try done.
      rewrite lookup_insert_ne; [done|].
      eapply Hother; [apply list_elem_of_here|done..].
    + intros r' name Hin. apply Hother. by apply list_elem_of_further.
Qed.

(** X3. When several rows name the same topic up to case, the last one with
    an owner decides: the topic of a usable row maps to the owner of that
    row unless a later usable row has the same name in lower case. *)
Theorem last_usable_row_wins before r after mapping name owner
    (Hload : load_bucket_mapping (Rows (before ++ r :: after)) = Ok mapping)
    (Hname : Name r = Text name)
    (Howner : Owner r = Text owner)
    (Husable : usable r = true)
    (Hlater : ∀ r' name', r' ∈ after → usable r' = true →
                Name r' = Text name' →
                lower (strip name') ≠ lower (strip name)) :
  mapping !! lower (strip name) = Some (strip owner).
Proof.
  simpl in Hload. rewrite load_rows_app in Hload.
  destruct (load_rows ∅ before) as [m0|]; simpl in Hload; [|done].
  destruct (short r) eqn:Hshort; [by rewrite load_row_short in Hload|].
  rewrite load_row_complete, Husable, Hname, Howner in Hload by done.
  simpl in Hload.
  eapply load_rows_keeps; [exact Hload| |exact Hlater].
  apply lookup_insert_eq.
Qed.

Lemma last_usable_row_wins_witness :
  ({[ "storage" := "Owner B" ]} : gmap string string)
    !! lower (strip " STORAGE ") = Some (strip "Owner B ").
Proof.
  apply (last_usable_row_wins [ Samples.topic "Storage" "Owner A" ]
           (Samples.topic " STORAGE " "Owner B ")
           [ Samples.topic "Billing" "" ]
           {[ "storage" := "Owner B" ]} " STORAGE " "Owner B ").
  - vm_compute. reflexivity.
  - reflexivity.
  - reflexivity.
  - reflexivity.
  - intros r' name' Hin. apply list_elem_of_singleton in Hin as ->.
    discriminate.
Defined.

(** ** The descriptions of the buckets *)

Lemma describe_rows_keeps rows : ∀ buckets lines line,
  describe_rows buckets rows = Ok lines → line ∈ buckets → line ∈ lines.
Proof.
  induction rows as [|r rows IH]; intros buckets lines line; simpl.
  - by intros [= <-].
  - destruct (describe_row r) as [[l|]|]; simpl; try done.
    + intros Hrows Hin. apply (IH _ _ _ Hrows).
      unfold append. apply elem_of_app. by left.
    + apply IH.
Qed.

Lemma described_row rows lines r name
    (Hlines : describe_rows [] rows = Ok lines)
    (Hrow : r ∈ rows)
    (Hname : Name r = Text name)
    (Hnamed : strip name ≠ EmptyString) :
  match Note r with
  | Text note =>
      if nonempty (strip note)
      then ("- " ++ strip name ++ ": " ++ strip note) ∈ lines
      else ("- " ++ strip name) ∈ lines
  | _ => ("- " ++ strip name) ∈ lines
  end.
Proof.
  apply nonempty_true in Hnamed.
  revert Hlines. generalize (@nil string) as buckets.
  induction rows as [|r' rows IH]; intros buckets; simpl.
  - by apply elem_of_nil in Hrow.
  - destruct (describe_row r') as [line|] eqn:Hline; simpl; [|done].
    apply elem_of_cons in Hrow as [<-|Hrow]; [|by apply IH].
    unfold describe_row in Hline. rewrite Hname in Hline. simpl in Hline.
    rewrite Hnamed in Hline.
    destruct (Note r) as [| |note]; simpl in Hline; try done.
    + injection Hline as <-. intros Hrows.
      apply (describe_rows_keeps _ _ _ _ Hrows).
      unfold append. apply elem_of_app. right. apply list_elem_of_here.
    + destruct (nonempty (strip note)); injection Hline as <-; intros Hrows;
        apply (describe_rows_keeps _ _ _ _ Hrows);
        unfold append; apply elem_of_app; right; apply list_elem_of_here.
Qed.

(** X4. Every row with a name is described to the model, whether it has an
    owner or not: the descriptions hold the line of its trimmed name, with
    the trimmed note when the row has one. *)
Theorem named_row_is_described rows lines r name
    (Hlines : describe_rows [] rows = Ok lines)
    (Hrow : r ∈ rows)
    (Hname : Name r = Text name)
    (Hnamed : strip name ≠ EmptyString) :
  match Note r with
  | Text note =>
      if nonempty (strip note)
      then ("- " ++ strip name ++ ": " ++ strip note) ∈ lines
      else ("- " ++ strip name) ∈ lines
  | _ => ("- " ++ strip name) ∈ lines
  end.
Proof. exact (described_row _ _ _ _ Hlines Hrow Hname Hnamed). Qed.

Lemma named_row_is_described_witness :
  ("- " ++ strip "Storage " ++ ": " ++ strip " files and tables")
    ∈ [ "- Storage: files and tables"; "- Billing" ].
Proof.
  apply (named_row_is_described
           [ {| Name := Text "Storage "; Owner := Text "";
                Note := Text " files and tables" |};
             {| Name := Text "Billing"; Owner := Text "Owner C";
                Note := Absent |} ]
           [ "- Storage: files and tables"; "- Billing" ]
           {| Name := Text "Storage "; Owner := Text "";
              Note := Text " files and tables" |} "Storage ").
  - reflexivity.
  - apply list_elem_of_here.
  - reflexivity.
  - discriminate.
Defined.

(** X5. The model is told of every topic that can be routed: when both the
    mapping and the descriptions load, every key of the mapping is the lower
    case of a name that starts a line of the descriptions. *)
Theorem routable_topic_is_described rows mapping lines key
    (Hload : load_bucket_mapping (Rows rows) = Ok mapping)
    (Hlines : describe_rows [] rows = Ok lines)
    (Hkey : is_Some (mapping !! key)) :
  ∃ name, lower name = key ∧
          (("- " ++ name) ∈ lines ∨
           ∃ note, ("- " ++ name ++ ": " ++ note) ∈ lines).
Proof.
  destruct Hkey as [owner Hkey].
  destruct (loaded_entry_origin _ _ _ _ Hload Hkey)
    as (_ & Hne & _ & r & name & o & Hin & _ & Hname & _ & -> & _).
  exists (strip name). split; [done|].
  assert (strip name ≠ EmptyString) as Hnamed by (by intros Heq; rewrite Heq in Hne).
  pose proof (described_row _ _ _ _ Hlines Hin Hname Hnamed) as Hline.
  destruct (Note r) as [| |note]; [by left..|].
  destruct (nonempty (strip note)); [right; by eexists|by left].
Qed.

Lemma routable_topic_is_described_witness :
  ∃ name, lower name = "billing" ∧
          (("- " ++ name) ∈ [ "- Billing"; "- Pricing" ] ∨
           ∃ note, ("- " ++ name ++ ": " ++ note) ∈ [ "- Billing"; "- Pricing" ]).
Proof.
  apply (routable_topic_is_described Samples.billing_rows
           {[ "billing" := "Owner C"; "pricing" := "Owner C" ]}
           [ "- Billing"; "- Pricing" ] "billing").
  - vm_compute. reflexivity.
  - reflexivity.
  - by eexists.
Defined.

(** ** Code fences *)

Lemma rstrip_app x y :
  y ≠ EmptyString → rstrip y = y → rstrip (x ++ y) = x ++ y.
Proof.
  intros Hy Hfix. induction x as [|c x IH].
  - done.
  - change (String c x ++ y) with (String c (x ++ y)). simpl. rewrite IH.
    destruct (x ++ y) eqn:Hxy; [|done].
    destruct x; [|done]. by destruct y.
Qed.

Lemma strip_fenced body :
  strip ("```" ++ body ++ "```") = "```" ++ body ++ "```".
Proof.
  unfold strip. change (lstrip ("```" ++ body ++ "```")) with ("```" ++ body ++ "```").
  change ("```" ++ body ++ "```") with (("```" ++ body) ++ "```").
  by apply rstrip_app.
Qed.

Lemma startswith_fence_inside s rest :
  s ≠ EmptyString →
  startswith "```" (s ++ "``") = false →
  startswith "```" (s ++ "```" ++ rest) = false.
Proof.
  destruct s as [|c1 [|c2 [|c3 s]]]; [done|..]; intros _; cbn;
    repeat match goal with
           | |- context [Ascii.eqb ?a ?b] => destruct (Ascii.eqb a b)
           end; done.
Qed.

Lemma before_fence body rest :
  contains "```" (body ++ "``") = false →
  before "```" (body ++ "```" ++ rest) = body.
Proof.
  induction body as [|c body IH]; intros Hnone; [done|].
  change (String c body ++ "``") with (String c (body ++ "``")) in Hnone.
  cbn [contains] in Hnone. apply orb_false_iff in Hnone as [Hhere Hlater].
  change (String c (body ++ "``")) with (String c body ++ "``") in Hhere.
  apply (startswith_fence_inside _ rest) in Hhere; [|done].
  change (String c body ++ "```" ++ rest)
    with (String c (body ++ "```" ++ rest)) in *.
  cbn [before]. rewrite Hhere. by rewrite IH.
Qed.

Lemma before_closing_fence body :
  contains "```" (body ++ "``") = false →
  before "```" (body ++ "```") = body.
Proof. apply (before_fence body EmptyString). Qed.

Lemma unfence_opening_fence text :
  unfence ("```" ++ text) =
    if startswith "json" (before "```" text)
    then PyStr.drop 4 (before "```" text)
    else before "```" text.
Proof. reflexivity. Qed.

Lemma before_fence_tag text :
  before "```" ("json" ++ text) = "json" ++ before "```" text.
Proof. reflexivity. Qed.

(** X6. A reply wrapped in a code fence is decoded without the fence: what
    is handed to [json.loads] is the text between the opening fence, with
    its optional [json] tag, and the closing fence, provided that text
    holds no fence itself. *)
Theorem unfence_fenced body
    (Hbody : contains "```" (body ++ "``") = false) :
  unfence (strip ("```json" ++ body ++ "```")) = body ∧
  (startswith "json" body = false →
   unfence (strip ("```" ++ body ++ "```")) = body).
Proof.
  split.
  - change ("```json" ++ body ++ "```") with ("```" ++ ("json" ++ body) ++ "```").
    rewrite strip_fenced, unfence_opening_fence.
    change (("json" ++ body) ++ "```") with ("json" ++ body ++ "```").
    rewrite before_fence_tag, before_closing_fence by done. reflexivity.
  - intros Htag.
    rewrite strip_fenced, unfence_opening_fence, before_closing_fence by done.
    by rewrite Htag.
Qed.

Lemma unfence_fenced_witness :
  unfence (strip ("```json" ++ Samples.storage_reply ++ "```"))
    = Samples.storage_reply ∧
  (startswith "json" Samples.storage_reply = false →
   unfence (strip ("```" ++ Samples.storage_reply ++ "```"))
     = Samples.storage_reply).
Proof. apply (unfence_fenced Samples.storage_reply). reflexivity. Defined.

(** ** What the interpreter keeps and when it raises *)

Lemma classic_object v : (∃ d, v = JObj d) ∨ (∀ d, v ≠ JObj d).
Proof. destruct v; try (by right); left; by eexists. Qed.

Lemma reconcile_raises mapping primary secondary confidence e :
  reconcile mapping primary secondary confidence = Raise e ↔
  e = AttributeError ∧
  Json.truthy secondary = true ∧ confidence = JStr "low" ∧
  ∀ s, secondary ≠ JStr s.
Proof.
  unfold reconcile. split.
  - destruct (Json.truthy secondary) eqn:Ht; simpl; [|done].
    destruct confidence as [| | | |t| |]; simpl; try done.
    destruct (String.eqb_spec t "low") as [->|]; [|done].
    destruct secondary as [| | | |s| |]; simpl; try by intros [= <-].
    by destruct (_ && _ && _).
  - intros (-> & -> & -> & Hs). simpl.
    destruct secondary as [| | | |s| |]; simpl; try done. by destruct (Hs s).
Qed.

Lemma reconcile_result mapping primary secondary confidence c :
  reconcile mapping primary secondary confidence = Ok c →
  c = confidence ∨
  confidence = JStr "low" ∧ c = JStr "high" ∧
  ∃ s owner, secondary = JStr s ∧ owner ≠ EmptyString ∧
             mapping !! lower primary = Some owner ∧
             mapping !! lower s = Some owner.
Proof.
  unfold reconcile.
  destruct (Json.truthy secondary && Json.eq_str confidence "low") eqn:Hguard;
    [|intros [= <-]; by left].
  apply andb_true_iff in Hguard as [_ Hlow].
  destruct confidence as [| | | |t| |]; simpl in Hlow; try done.
  apply String.eqb_eq in Hlow as ->.
  destruct secondary as [| | | |s| |]; simpl; try done.
  destruct (_ && _ && _) eqn:Hsame; intros [= <-]; [|by left].
  right. split; [done|]. split; [done|].
  apply andb_true_iff in Hsame as [[Hp Hs]%andb_true_iff Heq].
  apply String.eqb_eq in Heq.
  destruct (mapping !! lower primary) as [owner|] eqn:Hmp; [|done].
  destruct (mapping !! PyStr.lower s) as [owner'|] eqn:Hms; [|done].
  simpl in *. subst owner'. exists s, owner.
  apply nonempty_true in Hp. by repeat split.
Qed.

(** X7. The interpreter raises in two cases only. When [json.loads] raises
    an exception that is not the decoding error, that exception is not
    caught. When the reply decodes, an [AttributeError] is raised exactly
    for a value that is not an object, for an object whose primary bucket
    is not a string, and for an object with a low confidence and a
    secondary bucket that is true and not a string. A reply on which
    [json.loads] raises the decoding error never makes the interpreter
    raise. *)
Theorem interpret_raises py raw bucket_names mapping e :
  interpret py raw bucket_names mapping = Raise e ↔
  json_loads py (unfence (strip raw)) = None ∧
  json_error py (unfence (strip raw)) = Some e ∨
  e = AttributeError ∧
  ∃ v, json_loads py (unfence (strip raw)) = Some v ∧
       ((∀ d, v ≠ JObj d) ∨
        ∃ d, v = JObj d ∧
             ((∀ p, field d "primary_bucket" (JStr "UX") ≠ JStr p) ∨
              Json.truthy (field d "secondary_bucket" JNull) = true ∧
              field d "confidence" (JStr "low") = JStr "low" ∧
              ∀ s, field d "secondary_bucket" JNull ≠ JStr s)).
Proof.
  split.
  - destruct (json_loads py (unfence (strip raw))) as [v|] eqn:Hv.
    2: { destruct (json_error py (unfence (strip raw))) as [e'|] eqn:He.
         - rewrite (interpret_decoder_raises _ _ _ _ _ Hv He).
           intros [= <-]. by left.
         - by rewrite interpret_decode_error. }
    intros Hraise. right. revert Hraise.
    destruct (classic_object v) as [[d ->]|Hv'].
    + destruct (field d "primary_bucket" (JStr "UX")) eqn:Hp.
      5: { rewrite (interpret_object _ _ _ _ _ _ Hv Hp). simpl.
           destruct (reconcile _ _ _ _) eqn:Hr; simpl; [done|].
           intros [= <-]. apply reconcile_raises in Hr as (-> & Hr).
           split; [done|]. exists (JObj d). split; [done|].
           right. exists d. split; [done|]. by right. }
      all: unfold interpret; rewrite Hv; simpl; unfold field in Hp;
        rewrite Hp; simpl; intros [= <-]; split; [done|];
        exists (JObj d); (split; [done|]); right; exists d; (split; [done|]);
        left; intros p; unfold field; by rewrite Hp.
    + rewrite (interpret_not_object _ _ _ _ _ Hv Hv'). intros [= <-].
      split; [done|]. exists v. split; [done|]. by left.
  - intros [[Hv He]|(-> & v & Hv & [Hv'|(d & -> & Hd)])].
    + by apply interpret_decoder_raises.
    + by apply (interpret_not_object _ _ _ _ v).
    + destruct (field d "primary_bucket" (JStr "UX")) eqn:Hp.
      5: { rewrite (interpret_object _ _ _ _ _ _ Hv Hp). simpl.
           destruct Hd as [Hd|Hd]; [by destruct (Hd s)|].
           assert (reconcile mapping
                     (match_bucket bucket_names (lower s) s)
                     (field d "secondary_bucket" JNull)
                     (field d "confidence" (JStr "low"))
                   = Raise AttributeError) as ->; [|done].
           by apply reconcile_raises. }
      all: unfold interpret; rewrite Hv; simpl; unfold field in Hp;
        by rewrite Hp.
Qed.

(** A reply nested too deep for the decoder: the [RecursionError] is not a
    decoding error and leaves the interpreter. *)
Example deep_nesting_is_not_caught :
  interpret {| json_loads := λ _, None;
               json_error := λ _, Some (RecursionError "too deep");
               repr := repr (Samples.python []);
               key_order := key_order (Samples.python []) |}
    "[[[[" [] ∅
  = Raise (RecursionError "too deep").
Proof. reflexivity. Qed.

Lemma interpret_object_inv py raw bucket_names mapping d c :
  json_loads py (unfence (strip raw)) = Some (JObj d) →
  interpret py raw bucket_names mapping = Ok c →
  ∃ p confidence,
    field d "primary_bucket" (JStr "UX") = JStr p ∧
    reconcile mapping (match_bucket bucket_names (lower p) p)
      (field d "secondary_bucket" JNull) (field d "confidence" (JStr "low"))
    = Ok confidence ∧
    c = {| primary_bucket := match_bucket bucket_names (lower p) p;
           secondary_bucket := field d "secondary_bucket" JNull;
           confidence := confidence;
           reasoning := field d "reasoning" (JStr EmptyString) |}.
Proof.
  intros Hd Hc.
  destruct (field d "primary_bucket" (JStr "UX")) as [| | | |p| |] eqn:Hp.
  5: { rewrite (interpret_object _ _ _ _ _ _ Hd Hp) in Hc. simpl in Hc.
       destruct (reconcile _ _ _ _) as [confidence|] eqn:Hr; [|done].
       injection Hc as <-. by exists p, confidence. }
  all: unfold interpret in Hc; rewrite Hd in Hc; simpl in Hc;
    unfold field in Hp; by rewrite Hp in Hc.
Qed.

(** X8. The interpreter returns the secondary bucket and the reasoning of
    the reply as they are, and changes the confidence in one case only:
    a reported low becomes high, and then the primary and the secondary
    bucket have the same non-empty owner in the mapping. A reported
    confidence is never lowered. *)
Theorem reconciliation_only_upgrades py raw bucket_names mapping d c
    (Hdecode : json_loads py (unfence (strip raw)) = Some (JObj d))
    (Hresult : interpret py raw bucket_names mapping = Ok c) :
  secondary_bucket c = field d "secondary_bucket" JNull ∧
  reasoning c = field d "reasoning" (JStr EmptyString) ∧
  (confidence c = field d "confidence" (JStr "low") ∨
   field d "confidence" (JStr "low") = JStr "low" ∧
   confidence c = JStr "high" ∧
   ∃ s owner, secondary_bucket c = JStr s ∧ owner ≠ EmptyString ∧
              mapping !! lower (primary_bucket c) = Some owner ∧
              mapping !! lower s = Some owner).
Proof.
  destruct (interpret_object_inv _ _ _ _ _ _ Hdecode Hresult)
    as (p & confidence & Hp & Hr & ->). simpl.
  split; [done|]. split; [done|].
  apply reconcile_result in Hr as [->|(Hlow & -> & s & owner & Hs & H)];
    [by left|].
  right. split; [done|]. split; [done|]. by exists s, owner.
Qed.

Lemma reconciliation_only_upgrades_witness :
  let c := {| primary_bucket := "Billing";
              secondary_bucket := JStr "Pricing";
              confidence := JStr "low";
              reasoning := JStr "an invoice" |} in
  secondary_bucket c = field (Samples.billing_fields "low") "secondary_bucket" JNull ∧
  reasoning c = field (Samples.billing_fields "low") "reasoning" (JStr EmptyString) ∧
  (confidence c = field (Samples.billing_fields "low") "confidence" (JStr "low") ∨
   field (Samples.billing_fields "low") "confidence" (JStr "low") = JStr "low" ∧
   confidence c = JStr "high" ∧
   ∃ s owner, secondary_bucket c = JStr s ∧ owner ≠ EmptyString ∧
              Samples.review_mapping !! lower (primary_bucket c) = Some owner ∧
              Samples.review_mapping !! lower s = Some owner).
Proof.
  apply (reconciliation_only_upgrades (Samples.billing_python "low")
           (Samples.billing_reply "low") [] Samples.review_mapping
           (Samples.billing_fields "low")); reflexivity.
Defined.

(** X9. The validation of the primary bucket changes its casing at most,
    so that the owner looked up for it is not affected: the primary bucket
    of the result equals the one of the reply up to case, is the one of the
    reply or one of the bucket names, and is the one of the reply when no
    bucket name equals it up to case. *)
Theorem validation_changes_casing_only py raw bucket_names mapping d c
    (Hdecode : json_loads py (unfence (strip raw)) = Some (JObj d))
    (Hresult : interpret py raw bucket_names mapping = Ok c) :
  ∃ p, field d "primary_bucket" (JStr "UX") = JStr p ∧
       lower (primary_bucket c) = lower p ∧
       (primary_bucket c = p ∨ primary_bucket c ∈ bucket_names) ∧
       ((∀ name, name ∈ bucket_names → lower name ≠ lower p) →
        primary_bucket c = p).
Proof.
  destruct (interpret_object_inv _ _ _ _ _ _ Hdecode Hresult)
    as (p & confidence & Hp & _ & ->). simpl.
  exists p. split; [done|]. split; [apply lower_match_bucket|].
  destruct (match_bucket_spec bucket_names (lower p) p)
    as [[Heq Hnone]|[Hin Hlow]].
  - split; [by left|done].
  - split; [by right|]. intros Hnone. by destruct (Hnone _ Hin).
Qed.

Lemma validation_changes_casing_only_witness :
  ∃ p, field Samples.storage_fields "primary_bucket" (JStr "UX") = JStr p ∧
       lower "storage" = lower p ∧
       ("storage" = p ∨ "storage" ∈ [ "billing"; "storage" ]) ∧
       ((∀ name, name ∈ [ "billing"; "storage" ] → lower name ≠ lower p) →
        "storage" = p).
Proof.
  apply (validation_changes_casing_only Samples.storage_python
           Samples.storage_reply [ "billing"; "storage" ] ∅
           Samples.storage_fields
           {| primary_bucket := "storage";
              secondary_bucket := JNull;
              confidence := JStr "high";
              reasoning := JStr "about files" |}); reflexivity.
Defined.

(** ** Finding the member *)

Lemma add_aliases_lookup m lookup key v :
  add_aliases m lookup !! key = Some v →
  lookup !! key = Some v ∨ v = m ∧ answers_to m key.
Proof.
  unfold add_aliases, answers_to.
  generalize OWNER_NAME_MAP as table. intros table. revert lookup.
  induction table as [|[csv_name linear_name] table IH]; intros lookup;
    cbn [foldl]; [by left|].
  intros [Hstep|(-> & [Hkey|(csv & Hin & Hkey)])]%IH.
  - destruct (String.eqb_spec (member_name m) linear_name) as [Heq|_];
      [|by left].
    apply lookup_insert_Some in Hstep as [[<- <-]|[_ Hold]]; [|by left].
    right. split; [done|]. right. exists csv_name. split; [|done].
    rewrite Heq. apply list_elem_of_here.
  - right. split; [done|by left].
  - right. split; [done|]. right. exists csv. split; [|done].
    by apply list_elem_of_further.
Qed.

Lemma aliases_keep m table : ∀ (lookup : gmap string member) key,
  is_Some (lookup !! key) →
  is_Some (foldl (λ (lookup : gmap string member) '(csv_name, linear_name),
                    if String.eqb (member_name m) linear_name
                    then <[lower csv_name := m]> lookup
                    else lookup) lookup table !! key).
Proof.
  induction table as [|[csv_name linear_name] table IH]; intros lookup key Hkey;
    [done|].
  cbn [foldl]. apply IH. destruct (String.eqb _ _); [|done].
  destruct (decide (lower csv_name = key)) as [<-|Hne].
  - rewrite lookup_insert_eq. by eexists.
  - by rewrite lookup_insert_ne.
Qed.

Lemma add_aliases_keeps m lookup key :
  is_Some (lookup !! key) → is_Some (add_aliases m lookup !! key).
Proof. apply aliases_keep. Qed.

Lemma add_aliases_alias m lookup csv_name :
  (csv_name, member_name m) ∈ OWNER_NAME_MAP →
  is_Some (add_aliases m lookup !! lower csv_name).
Proof.
  unfold add_aliases.
  generalize OWNER_NAME_MAP as table. intros table. revert lookup.
  induction table as [|[csv linear] table IH]; intros lookup Hin.
  - by apply elem_of_nil in Hin.
  - cbn [foldl]. apply elem_of_cons in Hin as [[= <- <-]|Hin]; [|by apply IH].
    rewrite String.eqb_refl. apply aliases_keep.
    rewrite lookup_insert_eq. by eexists.
Qed.

Lemma member_lookup_entry team : ∀ lookup key v,
  foldl (λ lookup m, add_aliases m (<[lower (member_name m) := m]> lookup))
    lookup team !! key = Some v →
  lookup !! key = Some v ∨ v ∈ team ∧ answers_to v key.
Proof.
  induction team as [|m team IH]; intros lookup key v; cbn [foldl]; [by left|].
  intros [Hstep|[Hin Hkey]]%IH.
  - apply add_aliases_lookup in Hstep as [Hins|[-> Hkey]].
    + apply lookup_insert_Some in Hins as [[<- <-]|[_ Hold]]; [|by left].
      right. split; [apply list_elem_of_here|by left].
    + right. split; [apply list_elem_of_here|done].
  - right. split; [by apply list_elem_of_further|done].
Qed.

Lemma member_lookup_keeps team : ∀ lookup key,
  is_Some (lookup !! key) →
  is_Some (foldl (λ lookup m,
                    add_aliases m (<[lower (member_name m) := m]> lookup))
             lookup team !! key).
Proof.
  induction team as [|m team IH]; intros lookup key Hkey; cbn [foldl]; [done|].
  apply IH, add_aliases_keeps.
  destruct (decide (lower (member_name m) = key)) as [<-|Hne].
  - rewrite lookup_insert_eq. by eexists.
  - by rewrite lookup_insert_ne.
Qed.

Lemma member_lookup_has team : ∀ lookup m key,
  m ∈ team → answers_to m key →
  is_Some (foldl (λ lookup m,
                    add_aliases m (<[lower (member_name m) := m]> lookup))
             lookup team !! key).
Proof.
  induction team as [|m' team IH]; intros lookup m key Hin Hkey.
  - by apply elem_of_nil in Hin.
  - cbn [foldl]. apply elem_of_cons in Hin as [<-|Hin]; [|by eapply IH].
    apply member_lookup_keeps.
    destruct Hkey as [<-|(csv_name & Hcsv & <-)].
    + apply add_aliases_keeps. rewrite lookup_insert_eq. by eexists.
    + by apply add_aliases_alias.
Qed.

(** X10. The member found for an owner name is a member of the team who
    answers to that name or to its normalized spelling: the member's name
    equals it up to case, or is the display name registered for it. *)
Theorem find_member_sound team_members owner_name m
    (Hfound : find_member (build_member_lookup team_members) owner_name
              = Some m) :
  m ∈ team_members ∧
  (answers_to m (lower owner_name) ∨
   answers_to m (lower (normalize_owner_name owner_name))).
Proof.
  unfold find_member, build_member_lookup in Hfound.
  destruct (foldl _ ∅ team_members !! lower owner_name) as [m'|] eqn:Hraw.
  - injection Hfound as ->.
    apply member_lookup_entry in Hraw as [Hempty|[Hin Hkey]];
      [by rewrite lookup_empty in Hempty|]. split; [done|by left].
  - apply member_lookup_entry in Hfound as [Hempty|[Hin Hkey]];
      [by rewrite lookup_empty in Hempty|]. split; [done|by right].
Qed.

Lemma find_member_sound_witness :
  Samples.zuzana ∈ [ Samples.ann; Samples.zuzana ] ∧
  (answers_to Samples.zuzana (lower "ZUZANA Bednarova") ∨
   answers_to Samples.zuzana
     (lower (normalize_owner_name "ZUZANA Bednarova"))).
Proof.
  apply (find_member_sound [ Samples.ann; Samples.zuzana ] "ZUZANA Bednarova"
           Samples.zuzana).
  vm_compute. reflexivity.
Defined.

(** X11. A member of the team is found under every name the member answers
    to, in any casing, provided no other member of the team answers to that
    name: under the member's own name, and under the spelling that the
    catalog uses for the member's display name. *)
Theorem find_member_complete team_members m name
    (Hmember : m ∈ team_members)
    (Hname : answers_to m (lower name))
    (Hunique : ∀ m', m' ∈ team_members → answers_to m' (lower name) → m' = m) :
  find_member (build_member_lookup team_members) name = Some m.
Proof.
  unfold find_member, build_member_lookup.
  destruct (member_lookup_has team_members ∅ m (lower name) Hmember Hname)
    as [m' Hfound].
  rewrite Hfound.
  apply member_lookup_entry in Hfound as [Hempty|[Hin Hkey]];
    [by rewrite lookup_empty in Hempty|].
  by rewrite (Hunique m' Hin Hkey).
Qed.

Lemma find_member_complete_witness :
  find_member (build_member_lookup [ Samples.ann; Samples.zuzana ])
    "zuzana BEDNAROVA" = Some Samples.zuzana.
Proof.
  apply (find_member_complete [ Samples.ann; Samples.zuzana ] Samples.zuzana
           "zuzana BEDNAROVA").
  - apply list_elem_of_further, list_elem_of_here.
  - right. exists "Zuzana Bednarova". split; [|reflexivity].
    apply list_elem_of_further, list_elem_of_here.
  - intros m' Hin Hkey.
    apply elem_of_cons in Hin as [->|Hin];
      [|by apply list_elem_of_singleton in Hin].
    destruct Hkey as [Hkey|(csv_name & Hcsv & Hkey)]; [discriminate Hkey|].
    unfold OWNER_NAME_MAP in Hcsv.
    repeat (apply elem_of_cons in Hcsv as [Hcsv|Hcsv]; [discriminate Hcsv|]).
    by apply elem_of_nil in Hcsv.
Defined.

(** ** The calls and the entry of a turn *)

Lemma comments_follow_from_any assigned log :
  Calls.comments_follow_from None log = true →
  Calls.comments_follow_from assigned log = true.
Proof. destruct log as [|[| | |] log]; simpl; try done. Qed.

Lemma comments_follow_from_app log1 : ∀ assigned log2,
  Calls.comments_follow_from assigned log1 = true →
  Calls.comments_follow log2 = true →
  Calls.comments_follow_from assigned (log1 ++ log2) = true.
Proof.
  induction log1 as [|e log1 IH]; intros assigned log2 H1 H2.
  - by apply comments_follow_from_any.
  - destruct e as [| |? ? ? [|]|]; simpl in *; try by apply IH.
    destruct assigned as [i'|]; [|done].
    apply andb_true_iff in H1 as [-> H1]. simpl. by apply IH.
Qed.

Lemma comments_follow_app log1 log2 :
  Calls.comments_follow log1 = true →
  Calls.comments_follow log2 = true →
  Calls.comments_follow (log1 ++ log2) = true.
Proof. apply comments_follow_from_app. Qed.

(** In a log whose comments follow, the call before a comment is the
    assignment of the same issue, and it succeeded. *)
Lemma comments_follow_before before : ∀ assigned i body reply after,
  Calls.comments_follow_from assigned
    (before ++ AddComment i body reply :: after) = true →
  before = [] ∧ assigned = Some i ∨
  ∃ before' a label_ids u,
    before = (before' ++ [AssignIssue i a label_ids (Ok u)])%list.
Proof.
  induction before as [|e before IH]; intros assigned i body reply after; simpl.
  - destruct assigned as [i'|]; [|done].
    intros [->%String.eqb_eq _]%andb_true_iff. by left.
  - intros H. right.
    assert (∃ assigned',
      Calls.comments_follow_from assigned'
        (before ++ AddComment i body reply :: after) = true ∧
      (assigned' = None ∨
       ∃ j a label_ids u, e = AssignIssue j a label_ids (Ok u) ∧
                          assigned' = Some j)) as (assigned' & H' & He).
    { destruct e as [| |j a l [u|]|j b r].
      - exists None. split; [done|by left].
      - exists None. split; [done|by left].
      - exists (Some j). split; [done|]. right. by exists j, a, l, u.
      - exists None. split; [done|by left].
      - destruct assigned as [i'|]; [|done].
        apply andb_true_iff in H as [_ H]. exists None. split; [done|by left]. }
    destruct (IH _ _ _ _ _ H') as [[-> Hassigned]|(before' & a & l & u & ->)].
    + subst assigned'.
      destruct He as [He|(j & a & l & u & -> & [= ->])]; [done|].
      by exists [], a, l, u.
    + by exists (e :: before'), a, l, u.
Qed.


Section TurnFacts.

Variable py : runtime.
Variable sv : services.
Variable bucket_mapping : gmap string string.
Variable bucket_descriptions : string.
Variable member_lookup : gmap string member.
Variable team_id : string.
Variable bucket_names : list string.

Local Abbreviation assign' := (assign py sv team_id).
Local Abbreviation decide_issue' :=
  (decide_issue py sv bucket_mapping member_lookup team_id).
Local Abbreviation process_issue' :=
  (process_issue py sv bucket_mapping bucket_descriptions member_lookup
     team_id).
Local Abbreviation process_loop' :=
  (process_loop py sv bucket_mapping bucket_descriptions member_lookup
     team_id).

(** The calls of the end of a turn: they concern the issue and the member,
    the comment is the audit comment, and the label is looked up and sent
    exactly when the confidence is low. *)
Lemma assign_calls i bucket m c st log :
  ∃ r memo new,
    assign' false i bucket m c st log
      = (Ok (append (fst st) r, memo), (log ++ new)%list) ∧
    Calls.settled false i r new ∧
    Forall (λ e,
      match e with
      | MessagesCreate _ _ _ => False
      | GetOrCreateLabel team label _ =>
          team = team_id ∧ label = NEEDS_REVIEW_LABEL ∧
          confidence c = JStr "low"
      | AssignIssue issue assignee label_ids _ =>
          issue = issue_id i ∧ assignee = member_id m ∧
          (is_Some label_ids ↔ confidence c = JStr "low")
      | AddComment issue body _ =>
          issue = issue_id i ∧
          body = comment_body py bucket (member_name m) c
      end) new.
Proof.
  destruct st as [results memo]. unfold assign, review_label.
  unfold Run.bind, Run.attempt, Run.ret, call_get_or_create_label,
    call_assign_issue, call_add_comment, Run.call. simpl.
  assert (Json.eq_str (confidence c) "low" = true ↔ confidence c = JStr "low")
    as Hlow.
  { destruct (confidence c) as [| | | |t| |]; simpl; try done.
    rewrite String.eqb_eq. split; [by intros ->|by intros [= ->]]. }
  destruct (Json.eq_str (confidence c) "low") eqn:Hc;
    [destruct memo as [id|]|].
  all: simpl.
  all: repeat match goal with
         | |- context [get_or_create_label sv ?l ?t ?n] =>
             destruct (get_or_create_label sv l t n) eqn:?; simpl
         | |- context [assign_issue sv ?l ?a ?b ?c] =>
             destruct (assign_issue sv l a b c) eqn:?; simpl
         | |- context [add_comment sv ?l ?a ?b] =>
             destruct (add_comment sv l a b) eqn:?; simpl
         end.
  all: rewrite <- ?app_assoc; simpl.
  all: eexists _, _, _; (split; [reflexivity|]).
  all: split;
    [unfold Calls.settled, Calls.action_of, Calls.comments_follow; simpl;
     rewrite ?String.eqb_refl; simpl; repeat split; auto|].
  all: repeat constructor; try done.
  all: try (by apply Hlow).
  all: try (intros [? [=]]).
  all: try (intros H; apply Hlow in H; discriminate H).
  all: by apply Hlow.
Qed.

Lemma decide_calls i c st log :
  ∃ r memo new,
    decide_issue' false i c st log
      = (Ok (append (fst st) r, memo), (log ++ new)%list) ∧
    Calls.settled false i r new.
Proof.
  unfold decide_issue.
  destruct (resolve_owner_name _ _ _) as [[|ch owner]|].
  1,3: eexists _, (snd st), []; rewrite app_nil_r; split; [done|];
       unfold Calls.settled, Calls.action_of; simpl; auto 10.
  destruct (find_member _ _) as [m|].
  - destruct (assign_calls i (primary_bucket c) m c st log)
      as (r & memo & new & Heq & Hsettled & _). by exists r, memo, new.
  - eexists _, (snd st), []. rewrite app_nil_r. split; [done|].
    unfold Calls.settled, Calls.action_of. simpl. auto 10.
Qed.

Lemma preview_settled i c :
  Calls.settled true i (preview bucket_mapping member_lookup i c) [].
Proof.
  unfold preview, Calls.settled, Calls.action_of.
  destruct (resolve_owner_name _ _ _) as [[|ch owner]|]; simpl; auto 10.
  destruct (find_member _ _); simpl; auto 10.
Qed.

(** A turn adds one entry for its issue and calls that settle it, or stops
    on the exception of the classification. *)
Lemma process_issue_facts dry_run st i log :
  ∃ new,
    snd (process_issue' dry_run bucket_names st i log) = (log ++ new)%list ∧
    Calls.comments_follow new = true ∧
    match fst (process_issue' dry_run bucket_names st i log) with
    | Ok st' =>
        ∃ r, fst st' = append (fst st) r ∧ Calls.settled dry_run i r new
    | Raise e =>
        assignee i = None ∧
        messages_create sv log i bucket_descriptions
          ≫= (λ raw, interpret py raw bucket_names bucket_mapping) = Raise e ∧
        new = [ MessagesCreate i bucket_descriptions
                  (messages_create sv log i bucket_descriptions) ]
    end.
Proof.
  unfold process_issue.
  destruct (assignee i) as [current_assignee|] eqn:Hassignee.
  - exists []. rewrite app_nil_r. simpl. repeat split.
    eexists. split; [done|].
    unfold Calls.settled, Calls.action_of. simpl. destruct dry_run; auto 10.
  - unfold Run.bind. rewrite classify_issue_run. simpl.
    destruct (_ ≫= _) as [c|e] eqn:Hc; simpl.
    + destruct dry_run.
      * rewrite decide_dry. simpl. eexists [_]. repeat split.
        eexists. split; [done|]. apply preview_settled.
      * destruct (decide_calls i c st
                    (log ++ [MessagesCreate i bucket_descriptions
                               (messages_create sv log i bucket_descriptions)]))
          as (r & memo & new & -> & Hsettled).
        simpl. rewrite <- app_assoc. eexists (_ :: new). split; [done|].
        destruct Hsettled as (? & ? & ? & ? & ?).
        split; [done|]. exists r. by repeat split.
    + eexists [_]. by repeat split.
Qed.

(** X12. In a run that executes, the calls to the tracker for an issue
    whose owner resolves to a member of the team concern that issue and
    that member: the issue is assigned to the member, with the needs-review
    label exactly when the confidence is low, a label is looked up only
    when the confidence is low, and the comment is the audit comment. *)
Theorem tracker_calls_of_a_turn st i log c owner_name m
    (Hunassigned : assignee i = None)
    (Hclassified :
       messages_create sv log i bucket_descriptions
         ≫= (λ raw, interpret py raw bucket_names bucket_mapping) = Ok c)
    (Howner :
       resolve_owner_name bucket_mapping (title i) (primary_bucket c)
       = Some owner_name)
    (Hnamed : owner_name ≠ EmptyString)
    (Hmember : find_member member_lookup owner_name = Some m) :
  ∃ r memo new,
    process_issue' false bucket_names st i log
      = (Ok (append (fst st) r, memo),
         (log ++ MessagesCreate i bucket_descriptions
                   (messages_create sv log i bucket_descriptions) :: new)%list) ∧
    rep_owner r = Some (member_name m) ∧
    Forall (λ e,
      match e with
      | MessagesCreate _ _ _ => False
      | GetOrCreateLabel team label _ =>
          team = team_id ∧ label = NEEDS_REVIEW_LABEL ∧
          confidence c = JStr "low"
      | AssignIssue issue assignee label_ids _ =>
          issue = issue_id i ∧ assignee = member_id m ∧
          (is_Some label_ids ↔ confidence c = JStr "low")
      | AddComment issue body _ =>
          issue = issue_id i ∧
          body = comment_body py (primary_bucket c) (member_name m) c
      end) new.
Proof.
  unfold process_issue. rewrite Hunassigned.
  unfold Run.bind. rewrite classify_issue_run. simpl. rewrite Hclassified.
  unfold decide_issue. rewrite Howner.
  destruct owner_name as [|ch owner]; [done|]. rewrite Hmember.
  destruct (assign_calls i (primary_bucket c) m c st
              (log ++ [MessagesCreate i bucket_descriptions
                         (messages_create sv log i bucket_descriptions)]))
    as (r & memo & new & Heq & _ & Hcalls).
  pose proof (assign_real py sv team_id i (primary_bucket c) m c st
                (log ++ [MessagesCreate i bucket_descriptions
                           (messages_create sv log i bucket_descriptions)]))
    as (r' & memo' & new' & Heq' & Hdry & _).
  rewrite Heq in Heq'. injection Heq' as Hr _ _.
  apply app_inj_tail in Hr as [_ <-].
  exists r, memo, new. rewrite Heq, <- app_assoc. split; [done|].
  split; [|done]. by apply dry_real_owner in Hdry as (_ & _ & ->).
Qed.

(** X13. An issue whose owner cannot be resolved is reported as an error
    and nothing is sent to the tracker, in both modes: with the reason that
    no owner is found for the bucket when neither a feature override nor
    the mapping gives an owner name, and with the reason that the owner is
    not in the team when no member answers to the owner name. *)
Theorem unresolved_issue_is_reported dry_run st i log c
    (Hunassigned : assignee i = None)
    (Hclassified :
       messages_create sv log i bucket_descriptions
         ≫= (λ raw, interpret py raw bucket_names bucket_mapping) = Ok c)
    (Hunresolved :
       match resolve_owner_name bucket_mapping (title i) (primary_bucket c) with
       | None | Some EmptyString => True
       | Some owner_name => find_member member_lookup owner_name = None
       end) :
  process_issue' dry_run bucket_names st i log =
    (Ok (append (fst st)
           {| rep_identifier := identifier i;
              rep_title := title i;
              rep_bucket := Some (primary_bucket c);
              rep_owner :=
                match resolve_owner_name bucket_mapping (title i)
                        (primary_bucket c) with
                | None | Some EmptyString => None
                | Some owner_name => Some owner_name
                end;
              rep_confidence := None;
              rep_action := "error";
              rep_reason :=
                Some
                  match resolve_owner_name bucket_mapping (title i)
                          (primary_bucket c) with
                  | None | Some EmptyString =>
                      "No owner found for bucket '" ++ primary_bucket c ++ "'"
                  | Some owner_name =>
                      "Owner '" ++ owner_name ++ "' not found in Linear team"
                  end |},
         snd st),
     (log ++ [MessagesCreate i bucket_descriptions
                (messages_create sv log i bucket_descriptions)])%list).
Proof.
  unfold process_issue. rewrite Hunassigned.
  unfold Run.bind. rewrite classify_issue_run. simpl. rewrite Hclassified.
  unfold decide_issue.
  destruct (resolve_owner_name _ _ _) as [[|ch owner]|]; try done.
  by rewrite Hunresolved.
Qed.

(** A run adds one entry per issue, in order, and calls that settle them,
    or stops on the exception of a classification. *)
Lemma process_loop_facts dry_run issues : ∀ st log,
  ∃ new,
    snd (process_loop' dry_run bucket_names st issues log) = (log ++ new)%list ∧
    Calls.comments_follow new = true ∧
    match fst (process_loop' dry_run bucket_names st issues log) with
    | Ok st' =>
        ∃ entries,
          fst st' = (fst st ++ entries)%list ∧
          Forall2 (λ i r, rep_identifier r = identifier i ∧
                          rep_title r = title i ∧
                          Calls.action_of dry_run r) issues entries ∧
          length (List.filter (λ r, String.eqb (rep_action r) "assigned")
                    entries)
            = length (List.filter Calls.is_comment_added new)
    | Raise e =>
        ∃ i before,
          i ∈ issues ∧ assignee i = None ∧
          messages_create sv (log ++ before) i bucket_descriptions
            ≫= (λ raw, interpret py raw bucket_names bucket_mapping)
          = Raise e ∧
          new = (before ++ [ MessagesCreate i bucket_descriptions
                               (messages_create sv (log ++ before) i
                                  bucket_descriptions) ])%list
    end.
Proof.
  induction issues as [|i issues IH]; intros st log; simpl.
  - exists []. rewrite app_nil_r. repeat split.
    exists []. rewrite app_nil_r. by repeat split.
  - unfold Run.bind.
    destruct (process_issue_facts dry_run st i log) as (new1 & Hlog1 & Hcf1 & H1).
    destruct (process_issue' dry_run bucket_names st i log) as [[st1|e] log1];
      simpl in *; subst log1.
    + destruct H1 as (r & Hr & Hid & Htitle & Haction & Hcount & _).
      destruct (IH st1 (log ++ new1)%list) as (new2 & Hlog2 & Hcf2 & H2).
      exists (new1 ++ new2)%list. rewrite app_assoc. split; [done|].
      split; [by apply comments_follow_app|].
      destruct (fst (process_loop' dry_run bucket_names st1 issues _))
        as [st2|e].
      * destruct H2 as (entries & Hentries & Hall & Hcount2).
        exists (r :: entries). rewrite Hentries, Hr. unfold append.
        rewrite <- app_assoc. split; [done|].
        split; [by constructor|].
        rewrite List.filter_app, length_app, <- Hcount2, Hcount. simpl.
        by destruct (String.eqb (rep_action r) "assigned").
      * destruct H2 as (i' & before & Hin & Hnone & Hraise & ->).
        exists i', (new1 ++ before)%list.
        rewrite !app_assoc in *. split; [by apply list_elem_of_further|].
        by repeat split.
    + destruct H1 as (Hnone & Hraise & ->).
      eexists. split; [done|]. split; [done|].
      exists i, []. rewrite app_nil_r.
      split; [apply list_elem_of_here|]. by repeat split.
Qed.

End TurnFacts.

Lemma tracker_calls_of_a_turn_witness :
  ∃ r memo new,
    process_issue (Samples.billing_python "low") Samples.tracker
      Samples.review_mapping "" (build_member_lookup Samples.team) "team"
      false [ "billing"; "pricing" ] ([], None)
      (Samples.ticket "1" "Invoice is wrong" None) []
      = (Ok (append [] r, memo),
         ([] ++ MessagesCreate (Samples.ticket "1" "Invoice is wrong" None) ""
                  (Ok (Samples.billing_reply "low")) :: new)%list) ∧
    rep_owner r = Some "Ann" ∧
    Forall (λ e,
      match e with
      | MessagesCreate _ _ _ => False
      | GetOrCreateLabel team label _ =>
          team = "team" ∧ label = NEEDS_REVIEW_LABEL ∧
          confidence Samples.billing_result = JStr "low"
      | AssignIssue issue assignee label_ids _ =>
          issue = "id-1" ∧ assignee = "u1" ∧
          (is_Some label_ids ↔ confidence Samples.billing_result = JStr "low")
      | AddComment issue body _ =>
          issue = "id-1" ∧
          body = comment_body (Samples.billing_python "low") "billing" "Ann"
                   Samples.billing_result
      end) new.
Proof.
  apply (tracker_calls_of_a_turn (Samples.billing_python "low")
           Samples.tracker Samples.review_mapping ""
           (build_member_lookup Samples.team) "team" [ "billing"; "pricing" ]
           ([], None) (Samples.ticket "1" "Invoice is wrong" None) []
           Samples.billing_result "Ann" Samples.ann).
  - reflexivity.
  - reflexivity.
  - reflexivity.
  - discriminate.
  - vm_compute. reflexivity.
Defined.

Lemma unresolved_issue_is_reported_witness :
  process_issue Samples.storage_python Samples.storage_tracker ∅ ""
    (build_member_lookup Samples.team) "team" true []
    ([], None) (Samples.ticket "1" "Invoice is wrong" None) [] =
    (Ok ([ {| rep_identifier := "PROF-1";
              rep_title := "Invoice is wrong";
              rep_bucket := Some "STORAGE";
              rep_owner := None;
              rep_confidence := None;
              rep_action := "error";
              rep_reason := Some "No owner found for bucket 'STORAGE'" |} ],
         None),
     [ MessagesCreate (Samples.ticket "1" "Invoice is wrong" None) ""
         (Ok Samples.storage_reply) ]).
Proof.
  exact (unresolved_issue_is_reported Samples.storage_python
           Samples.storage_tracker ∅ "" (build_member_lookup Samples.team)
           "team" [] true ([], None)
           (Samples.ticket "1" "Invoice is wrong" None) []
           {| primary_bucket := "STORAGE";
              secondary_bucket := JNull;
              confidence := JStr "high";
              reasoning := JStr "about files" |}
           eq_refl eq_refl I).
Defined.

(** ** The entries and the calls of a run *)

Lemma process_issues_facts py sv issues bucket_mapping bucket_descriptions
    team_members team_id dry_run log :
  let outcome :=
    process_issues py sv issues bucket_mapping bucket_descriptions
      team_members team_id dry_run log in
  ∃ new,
    snd outcome = (log ++ new)%list ∧
    Calls.comments_follow new = true ∧
    match fst outcome with
    | Ok results =>
        Forall2 (λ i r, rep_identifier r = identifier i ∧
                        rep_title r = title i ∧
                        Calls.action_of dry_run r) issues results ∧
        length (List.filter (λ r, String.eqb (rep_action r) "assigned")
                  results)
          = length (List.filter Calls.is_comment_added new)
    | Raise e =>
        ∃ i before,
          i ∈ issues ∧ assignee i = None ∧
          messages_create sv (log ++ before) i bucket_descriptions
            ≫= (λ raw, interpret py raw (key_order py bucket_mapping)
                         bucket_mapping)
          = Raise e ∧
          new = (before ++ [ MessagesCreate i bucket_descriptions
                               (messages_create sv (log ++ before) i
                                  bucket_descriptions) ])%list
    end.
Proof.
  intros outcome. subst outcome.
  rewrite process_issues_log, process_issues_results.
  destruct (process_loop_facts py sv bucket_mapping bucket_descriptions
              (build_member_lookup team_members) team_id
              (key_order py bucket_mapping) dry_run issues ([], None) log)
    as (new & Hlog & Hcf & H).
  exists new. split; [done|]. split; [done|].
  destruct (fst (process_loop _ _ _ _ _ _ _ _ _ _ _)) as [[results memo]|e];
    simpl in *; [|done].
  by destruct H as (entries & -> & Hall & Hcount).
Qed.

(** X14. A run that returns has one entry per issue, in the order of the
    issues, with the identifier and the title of the issue; its action is
    skipped, error, or the assignment of the mode: would_assign in a dry
    run, assigned otherwise. *)
Theorem run_has_an_entry_per_issue py sv issues bucket_mapping
    bucket_descriptions team_members team_id dry_run log results
    (Hrun : fst (process_issues py sv issues bucket_mapping
                   bucket_descriptions team_members team_id dry_run log)
            = Ok results) :
  Forall2 (λ i r,
             rep_identifier r = identifier i ∧
             rep_title r = title i ∧
             (rep_action r = "skipped" ∨ rep_action r = "error" ∨
              rep_action r = if dry_run then "would_assign" else "assigned"))
    issues results.
Proof.
  destruct (process_issues_facts py sv issues bucket_mapping
              bucket_descriptions team_members team_id dry_run log)
    as (new & _ & _ & H).
  rewrite Hrun in H. by destruct H as [H _].
Qed.

Lemma run_has_an_entry_per_issue_witness :
  Forall2 (λ i r,
             rep_identifier r = identifier i ∧
             rep_title r = title i ∧
             (rep_action r = "skipped" ∨ rep_action r = "error" ∨
              rep_action r = if false then "would_assign" else "assigned"))
    Samples.tickets (Samples.entries (Samples.run Samples.flaky_tracker false)).
Proof.
  apply (run_has_an_entry_per_issue (Samples.billing_python "low")
           Samples.flaky_tracker Samples.tickets Samples.review_mapping ""
           Samples.team "team" false []).
  vm_compute. reflexivity.
Defined.

(** X15. In the log of a run, the call before a comment is the assignment
    of the same issue, and it succeeded: no comment is added to an issue
    whose assignment failed or was not tried. *)
Theorem comment_follows_assignment py sv issues bucket_mapping
    bucket_descriptions team_members team_id dry_run before i body reply after
    (Hlog :
       snd (process_issues py sv issues bucket_mapping bucket_descriptions
              team_members team_id dry_run [])
       = (before ++ AddComment i body reply :: after)%list) :
  ∃ before' assignee_id label_ids u,
    before = (before' ++ [ AssignIssue i assignee_id label_ids (Ok u) ])%list.
Proof.
  destruct (process_issues_facts py sv issues bucket_mapping
              bucket_descriptions team_members team_id dry_run [])
    as (new & Hnew & Hcf & _).
  rewrite Hlog in Hnew. simpl in Hnew. subst new.
  apply comments_follow_before in Hcf as [[_ [=]]|H]. done.
Qed.

Lemma comment_follows_assignment_witness :
  let log := snd (Samples.run Samples.tracker false) in
  log = (firstn 3 log ++
         AddComment "id-1"
           (comment_body (Samples.billing_python "low") "billing" "Ann"
              Samples.billing_result) (Ok ())
         :: skipn 4 log)%list ∧
  ∃ before' assignee_id label_ids u,
    firstn 3 log
    = (before' ++ [ AssignIssue "id-1" assignee_id label_ids (Ok u) ])%list.
Proof.
  intros log.
  assert (log = (firstn 3 log ++
                 AddComment "id-1"
                   (comment_body (Samples.billing_python "low") "billing" "Ann"
                      Samples.billing_result) (Ok ())
                 :: skipn 4 log)%list) as Hlog by (vm_compute; reflexivity).
  split; [exact Hlog|].
  exact (comment_follows_assignment (Samples.billing_python "low")
           Samples.tracker Samples.tickets Samples.review_mapping ""
           Samples.team "team" false (firstn 3 log) "id-1" _ (Ok ())
           (skipn 4 log) Hlog).
Defined.

(** X16. The entries of a run that returns say assigned for as many issues
    as the tracker accepted comments: an issue is reported as assigned
    only when its assignment and its comment both succeeded. *)
Theorem assigned_entries_match_comments py sv issues bucket_mapping
    bucket_descriptions team_members team_id dry_run results
    (Hrun : fst (process_issues py sv issues bucket_mapping
                   bucket_descriptions team_members team_id dry_run [])
            = Ok results) :
  length (List.filter (λ r, String.eqb (rep_action r) "assigned") results) =
  length (List.filter Calls.is_comment_added
            (snd (process_issues py sv issues bucket_mapping
                    bucket_descriptions team_members team_id dry_run []))).
Proof.
  destruct (process_issues_facts py sv issues bucket_mapping
              bucket_descriptions team_members team_id dry_run [])
    as (new & -> & _ & H).
  rewrite Hrun in H. by destruct H as [_ H].
Qed.

Lemma assigned_entries_match_comments_witness :
  length (List.filter (λ r, String.eqb (rep_action r) "assigned")
            (Samples.entries (Samples.run Samples.flaky_tracker false))) =
  length (List.filter Calls.is_comment_added
            (snd (Samples.run Samples.flaky_tracker false))).
Proof.
  apply (assigned_entries_match_comments (Samples.billing_python "low")
           Samples.flaky_tracker Samples.tickets Samples.review_mapping ""
           Samples.team "team" false).
  vm_compute. reflexivity.
Defined.

(** X17. A run stops on an exception only when the classification of an
    issue without assignee raises it, from the call to the model or from
    the interpretation of its reply; the log then ends with that call: the
    issues after it are not processed. The exceptions of the tracker never
    stop a run. *)
Theorem run_stops_on_classification_only py sv issues bucket_mapping
    bucket_descriptions team_members team_id dry_run e
    (Hrun : fst (process_issues py sv issues bucket_mapping
                   bucket_descriptions team_members team_id dry_run [])
            = Raise e) :
  ∃ i before,
    i ∈ issues ∧ assignee i = None ∧
    messages_create sv before i bucket_descriptions
      ≫= (λ raw, interpret py raw (key_order py bucket_mapping)
                   bucket_mapping) = Raise e ∧
    snd (process_issues py sv issues bucket_mapping bucket_descriptions
           team_members team_id dry_run [])
    = (before ++ [ MessagesCreate i bucket_descriptions
                     (messages_create sv before i bucket_descriptions) ])%list.
Proof.
  destruct (process_issues_facts py sv issues bucket_mapping
              bucket_descriptions team_members team_id dry_run [])
    as (new & -> & _ & H).
  rewrite Hrun in H. destruct H as (i & before & Hin & Hnone & Hraise & ->).
  by exists i, before.
Qed.

Lemma run_stops_on_classification_only_witness :
  ∃ i before,
    i ∈ Samples.tickets ∧ assignee i = None ∧
    messages_create Samples.silent_tracker before i ""
      ≫= (λ raw, interpret (Samples.billing_python "low") raw
                   (key_order (Samples.billing_python "low")
                      Samples.review_mapping)
                   Samples.review_mapping)
    = Raise (ServiceError "overloaded") ∧
    snd (Samples.run Samples.silent_tracker false)
    = (before ++ [ MessagesCreate i ""
                     (messages_create Samples.silent_tracker before i "") ])%list.
Proof.
  apply (run_stops_on_classification_only (Samples.billing_python "low")
           Samples.silent_tracker Samples.tickets Samples.review_mapping ""
           Samples.team "team" false).
  vm_compute. reflexivity.
Defined.

(** ** The summary *)

Lemma summary_actions dry_run results :
  Forall (Calls.action_of dry_run) results →
  sum_assigned (summarize results) + sum_skipped (summarize results)
    + sum_errors (summarize results) = length results.
Proof.
  unfold summarize, action_is. simpl.
  induction 1 as [|r results Hr _ IH]; [done|].
  simpl. destruct Hr as [Hr|[Hr|Hr]]; rewrite Hr; [| |destruct dry_run];
    simpl; lia.
Qed.

Lemma summary_tiers results :
  (length (List.filter (confidence_is "high") results)
     + length (List.filter (confidence_is "low") results)
   <= length results)%nat.
Proof.
  induction results as [|r results IH]; simpl; [done|].
  destruct (confidence_is "high" r) eqn:Hhigh,
           (confidence_is "low" r) eqn:Hlow; simpl; try lia.
  unfold confidence_is in Hhigh, Hlow.
  destruct (rep_confidence r) as [[| | | |t| |]|]; simpl in *; try done.
  apply String.eqb_eq in Hhigh, Hlow. by subst t.
Qed.

(** X18. The summary of a run that returns accounts for every issue once:
    the counts of assigned (or would-be assigned), skipped and error
    entries add up to the number of issues. The counts by confidence add up
    to the assigned count at most: an assigned entry whose confidence is
    neither high nor low is in neither. *)
Theorem summary_counts_every_issue py sv issues bucket_mapping
    bucket_descriptions team_members team_id dry_run log results
    (Hrun : fst (process_issues py sv issues bucket_mapping
                   bucket_descriptions team_members team_id dry_run log)
            = Ok results) :
  sum_assigned (summarize results) + sum_skipped (summarize results)
    + sum_errors (summarize results) = length issues ∧
  (sum_high_conf (summarize results) + sum_low_conf (summarize results)
   <= sum_assigned (summarize results))%nat.
Proof.
  destruct (process_issues_facts py sv issues bucket_mapping
              bucket_descriptions team_members team_id dry_run log)
    as (new & _ & _ & H).
  rewrite Hrun in H. destruct H as [Hall _].
  split; [|apply summary_tiers].
  rewrite (Forall2_length _ _ _ Hall).
  apply (summary_actions dry_run).
  clear Hrun. induction Hall as [|i r issues results (_ & _ & Hr) _ IH];
    constructor; done.
Qed.

Lemma summary_counts_every_issue_witness :
  sum_assigned (summarize (Samples.entries (Samples.run Samples.flaky_tracker false)))
    + sum_skipped (summarize (Samples.entries (Samples.run Samples.flaky_tracker false)))
    + sum_errors (summarize (Samples.entries (Samples.run Samples.flaky_tracker false)))
  = length Samples.tickets ∧
  (sum_high_conf (summarize (Samples.entries (Samples.run Samples.flaky_tracker false)))
     + sum_low_conf (summarize (Samples.entries (Samples.run Samples.flaky_tracker false)))
   <= sum_assigned (summarize (Samples.entries (Samples.run Samples.flaky_tracker false))))%nat.
Proof.
  apply (summary_counts_every_issue (Samples.billing_python "low")
           Samples.flaky_tracker Samples.tickets Samples.review_mapping ""
           Samples.team "team" false []).
  vm_compute. reflexivity.
Defined.

(** The summary of that run: the first ticket fails on the lookup of the
    label, the second is assigned, the third is skipped. *)
Example sample_summary :
  summarize (Samples.entries (Samples.run Samples.flaky_tracker false)) =
  {| sum_assigned := 1;
     sum_high_conf := 0;
     sum_low_conf := 1;
     sum_skipped := 1;
     sum_errors := 1 |}.
Proof. vm_compute. reflexivity. Qed.

(** ** The client of the tracker *)

(** X19. [get_or_create_label] sends the lookup, and sends the creation of
    the label only after a lookup that succeeded and found no label: when
    the lookup fails, or gives labels, the lookup is the only request, and
    with labels the identifier returned is the one of the first label. *)
Theorem label_is_created_only_when_missing py server team_id label_name log :
  let lookup :=
    {| Linear.req_operation := Linear.QGetLabel;
       Linear.req_variables :=
         {[ "teamId" := JStr team_id; "labelName" := JStr label_name ]} |} in
  let create :=
    {| Linear.req_operation := Linear.QCreateLabel;
       Linear.req_variables :=
         {[ "teamId" := JStr team_id; "name" := JStr label_name ]} |} in
  let outcome := Linear.get_or_create_label py server team_id label_name log in
  match Linear.query_result py (server log lookup)
          ≫= (λ data, Linear.item data "issueLabels"
                        ≫= λ v, Linear.item v "nodes") with
  | Linear.Return labels =>
      if Json.truthy labels
      then outcome =
             (Linear.first labels ≫= λ label, Linear.item label "id",
              (log ++ [ (lookup, server log lookup) ])%list)
      else snd outcome =
             (log ++ [ (lookup, server log lookup);
                       (create,
                        server (log ++ [ (lookup, server log lookup) ])%list
                          create) ])%list
  | Linear.Throw e =>
      outcome = (Linear.Throw e, (log ++ [ (lookup, server log lookup) ])%list)
  end.
Proof.
  intros lookup create outcome. subst outcome.
  unfold Linear.get_or_create_label, Linear.bind, Linear._query, Linear.lift.
  fold lookup. fold create.
  destruct (Linear.query_result py (server log lookup)) as [data|e]; simpl;
    [|done].
  destruct (Linear.item data "issueLabels" ≫= _) as [labels|e]; simpl; [|done].
  destruct (Json.truthy labels); [done|].
  destruct (Linear.query_result py _) as [data'|e']; simpl;
    by rewrite <- app_assoc.
Qed.
